(** * wav_cpp: a sine oscillator and a PCM WAV container writer

    Shallow embedding of [src/main.cpp] and the properties of its
    specification.

    Platform assumptions (the ones the source itself makes): x86-64,
    little-endian object representation, [size_t] of 64 bits, IEEE-754
    binary32 [float] and binary64 [double] evaluated in their own format
    ([FLT_EVAL_METHOD = 0]), round to nearest even.  Floating-point values
    and operations are those of the Standard Library's [SpecFloat].
    Memory allocation is taken to succeed ([std::bad_alloc] is not
    modelled); [std::sin] is a parameter. *)

From Stdlib Require Import ZArith List Bool String Ascii Lia.
From Stdlib Require Import Floats.SpecFloat.
From Equations Require Import Equations.
Import ListNotations.
Local Open Scope string_scope.
Local Open Scope list_scope.
Local Open Scope Z_scope.

(** ** Machine integers and bytes *)

Definition byte := Z.

Definition uint16_t (x : Z) : Z := x mod 2 ^ 16.
Definition uint32_t (x : Z) : Z := x mod 2 ^ 32.
Definition size_t (x : Z) : Z := x mod 2 ^ 64.

Definition INT16_MIN : Z := - 32768.
Definition INT16_MAX : Z := 32767.

(** Object representation of an unsigned integer of [n] bytes, least
    significant byte first. *)
Fixpoint le_bytes (n : nat) (x : Z) : list byte :=
  match n with
  | O => []
  | S n' => x mod 256 :: le_bytes n' (x / 256)
  end.

(** The value a little-endian byte sequence denotes. *)
Fixpoint le_value (bs : list byte) : Z :=
  match bs with
  | [] => 0
  | b :: bs' => b + 256 * le_value bs'
  end.

(** Object representation of an [int16_t]: two's complement, two bytes. *)
Definition int16_bytes (v : Z) : list byte := le_bytes 2 (uint16_t v).

(** The [char]s of a string literal (without the terminator). *)
Definition chars (s : string) : list byte :=
  map (fun c => Z.of_N (N_of_ascii c)) (list_ascii_of_string s).

(** The bytes [first, first + count) of a byte sequence. *)
Definition slice (first count : nat) (bs : list byte) : list byte :=
  firstn count (skipn first bs).

(** ** IEEE-754 arithmetic: [float] is binary32, [double] is binary64 *)

Definition float := spec_float.
Definition double := spec_float.

Module F32.
Definition prec : Z := 24.
Definition emax : Z := 128.
Definition valid (x : float) : bool := valid_binary prec emax x.
Definition add : float -> float -> float := SFadd prec emax.
Definition sub : float -> float -> float := SFsub prec emax.
Definition mul : float -> float -> float := SFmul prec emax.
Definition div : float -> float -> float := SFdiv prec emax.
(** [x >= y] *)
Definition ge (x y : float) : bool := SFleb y x.
(** [x <= y] and [x < y] *)
Definition le (x y : float) : bool := SFleb x y.
Definition lt (x y : float) : bool := SFltb x y.
(** The [float] nearest to an integer (integral conversion, literals). *)
Definition of_Z (n : Z) : float := binary_normalize prec emax n 0 false.
(** [static_cast<float>(d)] of a [double]. *)
Definition of_double (d : double) : float :=
  match d with
  | S754_finite s m e => binary_round prec emax s m e
  | _ => d
  end.
End F32.

Module F64.
Definition prec : Z := 53.
Definition emax : Z := 1024.
Definition valid (x : double) : bool := valid_binary prec emax x.
Definition sub : double -> double -> double := SFsub prec emax.
Definition mul : double -> double -> double := SFmul prec emax.
Definition of_Z (n : Z) : double := binary_normalize prec emax n 0 false.
(** The implicit, exact conversion of a [float] operand to [double]. *)
Definition of_float (x : float) : double :=
  match x with
  | S754_finite s m e => binary_round prec emax s m e
  | _ => x
  end.
(** A finite value with its fraction discarded (rounded toward zero). *)
Definition trunc (s : bool) (m : positive) (e : Z) : Z :=
  cond_Zopp s (Z.shiftl (Zpos m) e).
End F64.

(** [static_cast<int16_t>(d)]: the value truncated toward zero; the
    conversion has no defined result when that value is not representable
    in the destination type, or when [d] is not finite. *)
Definition cast_int16 (d : double) : option Z :=
  match d with
  | S754_zero _ => Some 0
  | S754_finite s m e =>
      let t := F64.trunc s m e in
      if (INT16_MIN <=? t) && (t <=? INT16_MAX) then Some t else None
  | _ => None
  end.

(** ** The conversion as x86-64 compilers perform it

    [static_cast<int16_t>(d)] on a [double] is compiled for x86-64 to the
    instruction [cvttsd2si] with a 32-bit destination register, of which
    the low 16 bits are then stored. *)

(** [cvttsd2si r32, xmm]: the value truncated toward zero, or the
    "integer indefinite" value [0x80000000] when the truncated value does
    not fit in 32 bits or the operand is an infinity or a NaN. *)
Definition cvttsd2si (d : double) : Z :=
  match d with
  | S754_zero _ => 0
  | S754_finite s m e =>
      let t := F64.trunc s m e in
      if (- 2 ^ 31 <=? t) && (t <? 2 ^ 31) then t else - 2 ^ 31
  | _ => - 2 ^ 31
  end.

(** The low 16 bits of a register, read as an [int16_t]. *)
Definition int16_of_low_bits (r : Z) : Z := (r + 2 ^ 15) mod 2 ^ 16 - 2 ^ 15.

Definition cast_int16_x86_64 (d : double) : Z :=
  int16_of_low_bits (cvttsd2si d).

(** ** Constants and functions of the C library *)

(** [M_PI] of the C library's [<cmath>]: the [double] nearest to pi,
    [0x1.921fb54442d18p+1]. *)
Definition M_PI : double := S754_finite false 7074237752028440 (-51).

(** [std::pow] of the C library's [<cmath>].  The program calls it once,
    as [pow(2.0, 15)], whose result 32768 is representable and is what
    every C library returns; for a non-negative integral exponent it is
    taken as repeated multiplication, which is exact there. *)
Definition std_pow (base : double) (exponent : Z) : double :=
  Nat.iter (Z.to_nat exponent) (F64.mul base) (F64.of_Z 1).

(** ** Results of running code *)

Inductive outcome (A : Type) : Type :=
| Normal (a : A)              (* ran to completion *)
| Thrown (what : string)      (* left by a [std::runtime_error] *)
| Undefined.                  (* the C++ standard gives the run no meaning *)
Arguments Normal {A} a.
Arguments Thrown {A} what.
Arguments Undefined {A}.

(** ** namespace wav *)

Module wav.

Definition SAMPLE_RATE : Z := 44100.
Definition BIT_DEPTH : Z := 16.
Definition NUM_CHANNELS : Z := 1.
Definition AUDIO_FORMAT : Z := 1.
Definition FMT_CHUNK_SIZE : Z := 16.
Definition HEADER_SIZE : Z := 44.

(** [std::array<char, 4>] *)
Record char4 : Type := Char4 { c0 : byte; c1 : byte; c2 : byte; c3 : byte }.

Definition char4_bytes (a : char4) : list byte :=
  [c0 a mod 256; c1 a mod 256; c2 a mod 256; c3 a mod 256].

Record Header : Type := {
  riffHeader : char4;
  chunkSize : Z;
  waveHeader : char4;
  fmtHeader : char4;
  subchunk1Size : Z;
  audioFormat : Z;
  numChannels : Z;
  sampleRate : Z;
  byteRate : Z;
  blockAlign : Z;
  bitsPerSample : Z;
  dataHeader : char4;
  dataSize : Z
}.

Definition set_dataSize (h : Header) (v : Z) : Header :=
  {| riffHeader := riffHeader h; chunkSize := chunkSize h;
     waveHeader := waveHeader h; fmtHeader := fmtHeader h;
     subchunk1Size := subchunk1Size h; audioFormat := audioFormat h;
     numChannels := numChannels h; sampleRate := sampleRate h;
     byteRate := byteRate h; blockAlign := blockAlign h;
     bitsPerSample := bitsPerSample h; dataHeader := dataHeader h;
     dataSize := v |}.

Definition set_chunkSize (h : Header) (v : Z) : Header :=
  {| riffHeader := riffHeader h; chunkSize := v;
     waveHeader := waveHeader h; fmtHeader := fmtHeader h;
     subchunk1Size := subchunk1Size h; audioFormat := audioFormat h;
     numChannels := numChannels h; sampleRate := sampleRate h;
     byteRate := byteRate h; blockAlign := blockAlign h;
     bitsPerSample := bitsPerSample h; dataHeader := dataHeader h;
     dataSize := dataSize h |}.

(** Object representation of the struct under [#pragma pack(push, 1)]:
    the members in declaration order, no padding. *)
Definition object_bytes (h : Header) : list byte :=
  char4_bytes (riffHeader h) ++ le_bytes 4 (chunkSize h) ++
  char4_bytes (waveHeader h) ++
  char4_bytes (fmtHeader h) ++ le_bytes 4 (subchunk1Size h) ++
  le_bytes 2 (audioFormat h) ++ le_bytes 2 (numChannels h) ++
  le_bytes 4 (sampleRate h) ++ le_bytes 4 (byteRate h) ++
  le_bytes 2 (blockAlign h) ++ le_bytes 2 (bitsPerSample h) ++
  char4_bytes (dataHeader h) ++ le_bytes 4 (dataSize h).

Definition sizeof_Header : Z := 44.

End wav.

(** ** The world a run happens in

    What the program does not decide itself: which paths can be opened for
    writing, how many bytes the destination accepts before a write fails
    ([None]: no limit), and the indeterminate contents of the storage in
    which [writeToFile] places its local [header]. *)

Record World : Type := {
  can_open : string -> bool;
  space : option Z;
  indeterminate : wav.Header
}.

(** ** std::ofstream

    The stream's exception mask is never set, so a failed operation only
    clears [good]; once [good] is false every further write is a no-op. *)

Record ofstream : Type := {
  good : bool;
  room : option Z;
  contents : list byte
}.

(** [std::ofstream file(filename, std::ios::binary)]: truncates. *)
Definition ofstream_open (w : World) (filename : string) : ofstream :=
  {| good := can_open w filename; room := space w; contents := [] |}.

(** [file.write(p, n)] where [p] points [at] bytes into the object [mem]. *)
Definition ofstream_write (file : ofstream) (mem : list byte) (at_ n : Z)
  : ofstream :=
  if good file then
    let bytes := slice (Z.to_nat at_) (Z.to_nat n) mem in
    match room file with
    | None =>
        {| good := true; room := None; contents := contents file ++ bytes |}
    | Some r =>
        if n <=? r
        then {| good := true; room := Some (r - n);
                contents := contents file ++ bytes |}
        else {| good := false; room := Some 0;
                contents := contents file ++ firstn (Z.to_nat r) bytes |}
    end
  else file.

(** [file.close()] *)
Definition ofstream_close (file : ofstream) : ofstream := file.

(** ** class WavWriter (container part) *)

Record WavWriter : Type := {
  buffer : list Z;                (* std::vector<int16_t> *)
  maxAmplitude : spec_float       (* const double *)
}.

(** [buffer.data()] seen through [const char*]. *)
Definition buffer_bytes (self : WavWriter) : list byte :=
  flat_map int16_bytes (buffer self).

(** [buffer.size()] *)
Definition buffer_size (self : WavWriter) : Z := Z.of_nat (List.length (buffer self)).

Definition CHUNK_SIZE : Z := 8192.

(** The chunked write loop of [writeToFile]:
    [while (remaining > 0) { ... }]. *)
Equations? write_chunks (file : ofstream) (mem : list byte)
  (audioData remaining : Z) : ofstream by wf (Z.to_nat remaining) lt :=
  write_chunks file mem audioData remaining with Z_lt_dec 0 remaining => {
    | left positive :=
        let writeSize := Z.min remaining CHUNK_SIZE in
        write_chunks (ofstream_write file mem audioData writeSize) mem
          (audioData + writeSize) (remaining - writeSize);
    | right _ := file }.
Proof.
  subst writeSize. unfold CHUNK_SIZE. lia.
Qed.

(** The local [header] of [writeToFile] after its two assignments. *)
Definition writeToFile_header (w : World) (self : WavWriter) : wav.Header :=
  let header := indeterminate w in                       (* wav::Header header; *)
  let header :=
    wav.set_dataSize header (uint32_t (size_t (buffer_size self * 2))) in
  let header :=
    wav.set_chunkSize header
      (uint32_t (wav.HEADER_SIZE + wav.dataSize header - 8)) in
  header.

Definition writeToFile (w : World) (self : WavWriter) (filename : string)
  : outcome ofstream :=
  let file := ofstream_open w filename in
  if negb (good file) then Thrown ("Could not open file: " ++ filename)%string
  else
    let header := writeToFile_header w self in
    let file := ofstream_write file (wav.object_bytes header) 0 wav.sizeof_Header in
    let audioData := buffer_bytes self in
    let remaining := wav.dataSize header in
    let file := write_chunks file audioData 0 remaining in
    Normal (ofstream_close file).

(** ** class SineOscillator *)

Record SineOscillator : Type := {
  frequency : float;
  amplitude : float;
  angle : float;
  angleStep : float
}.

(** [static constexpr float TWO_PI = 2.0f * static_cast<float>(M_PI)] *)
Definition TWO_PI : float := F32.mul (F32.of_Z 2) (F32.of_double M_PI).

(** The constructor; [angle] has the default member initialiser [0.0f]. *)
Definition SineOscillator_new (freq amp : float) : SineOscillator :=
  {| frequency := freq;
     amplitude := amp;
     angle := S754_zero false;
     angleStep := F32.div (F32.mul TWO_PI freq) (F32.of_Z wav.SAMPLE_RATE) |}.

Section Process.

(** [std::sin] on [float], from the C library. *)
Variable sinf : float -> float.

Definition process (self : SineOscillator) : float * SineOscillator :=
  let sample := F32.mul (amplitude self) (sinf (angle self)) in
  let angle1 := F32.add (angle self) (angleStep self) in
  let angle2 := if F32.ge angle1 TWO_PI then F32.sub angle1 TWO_PI else angle1 in
  (sample,
   {| frequency := frequency self; amplitude := amplitude self;
      angle := angle2; angleStep := angleStep self |}).

End Process.

(** ** class WavWriter (sample part) *)

Definition WavWriter_new : WavWriter :=
  {| buffer := [];
     maxAmplitude :=
       F64.sub (std_pow (F64.of_Z 2) (wav.BIT_DEPTH - 1)) (F64.of_Z 1) |}.

(** [buffer.push_back(v)] *)
Definition push_back (self : WavWriter) (v : Z) : WavWriter :=
  {| buffer := buffer self ++ [v]; maxAmplitude := maxAmplitude self |}.

Definition addSample (self : WavWriter) (sample : float) : outcome WavWriter :=
  match cast_int16 (F64.mul (F64.of_float sample) (maxAmplitude self)) with
  | Some v => Normal (push_back self v)
  | None => Undefined
  end.

(** [addSample] with the conversion performed that way. *)
Definition addSample_x86_64 (self : WavWriter) (sample : float) : WavWriter :=
  push_back self
    (cast_int16_x86_64 (F64.mul (F64.of_float sample) (maxAmplitude self))).

(** ** main *)

Record ProcessResult : Type := {
  exit_code : Z;
  stderr : string;
  audio_wav : option ofstream     (* the stream [writeToFile] left behind *)
}.

Definition DURATION_SECONDS : Z := 2.
Definition FREQUENCY : float := F32.of_Z 440.                  (* 440.0f *)
Definition AMPLITUDE : float := S754_finite false 8388608 (-24).  (* 0.5f *)

Definition endl : string := String (ascii_of_nat 10) EmptyString.

Section Main.

Variable sinf : float -> float.

(** [for (int i = 0; i < n; ++i) writer.addSample(oscillator.process());] *)
Fixpoint generate (n : nat) (oscillator : SineOscillator) (writer : WavWriter)
  : outcome WavWriter :=
  match n with
  | O => Normal writer
  | S n' =>
      let (sample, oscillator') := process sinf oscillator in
      match addSample writer sample with
      | Normal writer' => generate n' oscillator' writer'
      | Thrown what => Thrown what
      | Undefined => Undefined
      end
  end.

(** The [try] block. *)
Definition main_try (w : World) : outcome ofstream :=
  let oscillator := SineOscillator_new FREQUENCY AMPLITUDE in
  let writer := WavWriter_new in
  match
    generate (Z.to_nat (uint32_t (wav.SAMPLE_RATE * DURATION_SECONDS)))
      oscillator writer
  with
  | Normal writer' => writeToFile w writer' "audio.wav"
  | Thrown what => Thrown what
  | Undefined => Undefined
  end.

Definition main (w : World) : outcome ProcessResult :=
  match main_try w with
  | Normal file =>
      Normal {| exit_code := 0; stderr := ""; audio_wav := Some file |}
  | Thrown what =>
      Normal {| exit_code := 1; stderr := "Error: " ++ what ++ endl;
                audio_wav := None |}
  | Undefined => Undefined
  end.

End Main.

(** The oscillator after [n] calls of [process]. *)
Definition after (sinf : float -> float) (n : nat) (self : SineOscillator)
  : SineOscillator :=
  Nat.iter n (fun o => snd (process sinf o)) self.

(** The outputs of the first [n] calls of [process]. *)
Definition oscillator_samples (sinf : float -> float) (n : nat)
  (self : SineOscillator) : list float :=
  map (fun k => fst (process sinf (after sinf k self))) (seq 0 n).

(** A value an [int16_t] can hold. *)
Definition in_int16 (v : Z) : Prop := INT16_MIN <= v <= INT16_MAX.

(** ** Values and ranges of binary32 numbers *)

(** The value of a positive finite [float], in units of [2^-200]. *)
Definition pos32 (m : positive) (e : Z) : Z := Zpos m * 2 ^ (e + 200).

(** A mantissa and exponent in the canonical form of binary32. *)
Definition canonical32 (m : positive) (e : Z) : Prop :=
  canonical_mantissa F32.prec F32.emax m e = true.

(** A finite, non-negative [float]: [+0] or a valid positive value. *)
Inductive nonneg32 : float -> Prop :=
| nonneg32_zero : nonneg32 (S754_zero false)
| nonneg32_pos (m : positive) (e : Z) :
    F32.valid (S754_finite false m e) = true ->
    nonneg32 (S754_finite false m e).

(** The value of a finite [float], in units of [2^-200]. *)
Definition scaled32 (x : float) : Z :=
  match x with
  | S754_finite s m e => cond_Zopp s (Zpos m * 2 ^ (e + 200))
  | _ => 0
  end.

(** The phase is a finite value in [[0, 2 pi)]: it passes the program's own
    comparisons with 0 and [TWO_PI], and it is below 6.2831853, a decimal
    below [2 pi = 6.28318530717...]. *)
Definition phase_in_range (a : float) : Prop :=
  F32.valid a = true /\
  F32.le (S754_zero false) a = true /\
  F32.lt a TWO_PI = true /\
  0 <= scaled32 a /\
  scaled32 a * 10 ^ 7 < 62831853 * 2 ^ 200.

(** What [process] maintains: the phase is below [TWO_PI], the step is at
    most 6. *)
Definition phase_invariant (a : float) : Prop :=
  nonneg32 a /\ scaled32 a < pos32 13176795 (-21).

Definition step_invariant (s : float) : Prop :=
  nonneg32 s /\ scaled32 s <= pos32 12582912 (-21).

(** What the program needs from the C library's sine: on a phase in
    range, a [float] of magnitude at most 1. *)
Definition sine_in_range (sinf : float -> float) : Prop :=
  forall a : float, phase_in_range a ->
    F32.valid (sinf a) = true /\
    F32.le (SFabs (sinf a)) (F32.of_Z 1) = true.

(** A zero or a finite non-zero value (neither an infinity nor a NaN). *)
Definition is_finite32 (x : float) : bool :=
  match x with
  | S754_zero _ | S754_finite _ _ _ => true
  | _ => false
  end.

(** [posK K m e] is the value [m * 2^e] in units of [2^-K]; the scale 200
    of [pos32] is too small for the product of two arbitrary [float]s. *)
Definition posK (K : Z) (m : positive) (e : Z) : Z := Zpos m * 2 ^ (e + K).

(** [x] carries the sign [s] and is not a NaN. *)
Definition signed (s : bool) (x : float) : Prop :=
  match x with
  | S754_zero s' | S754_infinity s' | S754_finite s' _ _ => s' = s
  | S754_nan => False
  end.

(** A phase that is not above zero: a zero, a negative value or minus
    infinity. *)
Definition nonpos32 (a : float) : Prop :=
  match a with
  | S754_zero _ => True
  | _ => signed true a
  end.

(** ** Concrete runs used below *)

(** Storage that happens to hold only zero bytes. *)
Definition zeroed : wav.Header :=
  {| wav.riffHeader := wav.Char4 0 0 0 0; wav.chunkSize := 0;
     wav.waveHeader := wav.Char4 0 0 0 0;
     wav.fmtHeader := wav.Char4 0 0 0 0; wav.subchunk1Size := 0;
     wav.audioFormat := 0; wav.numChannels := 0; wav.sampleRate := 0;
     wav.byteRate := 0; wav.blockAlign := 0; wav.bitsPerSample := 0;
     wav.dataHeader := wav.Char4 0 0 0 0; wav.dataSize := 0 |}.

(** Storage that holds one set bit. *)
Definition stale : wav.Header :=
  {| wav.riffHeader := wav.Char4 1 0 0 0; wav.chunkSize := 0;
     wav.waveHeader := wav.Char4 0 0 0 0;
     wav.fmtHeader := wav.Char4 0 0 0 0; wav.subchunk1Size := 0;
     wav.audioFormat := 0; wav.numChannels := 0; wav.sampleRate := 0;
     wav.byteRate := 0; wav.blockAlign := 0; wav.bitsPerSample := 0;
     wav.dataHeader := wav.Char4 0 0 0 0; wav.dataSize := 0 |}.

(** Every path opens, the destination takes any number of bytes. *)
Definition zeroed_world : World :=
  {| can_open := fun _ => true; space := None; indeterminate := zeroed |}.

Definition stale_world : World :=
  {| can_open := fun _ => true; space := None; indeterminate := stale |}.

(** Every path opens, no byte can be written (a full disk, [/dev/full]). *)
Definition full_disk : World :=
  {| can_open := fun _ => true; space := Some 0; indeterminate := zeroed |}.

(** No path opens (a missing directory, no permission). *)
Definition read_only : World :=
  {| can_open := fun _ => false; space := None; indeterminate := zeroed |}.


(** A writer holding three samples. *)
Definition three_samples : WavWriter :=
  {| buffer := [1; -2; 258]; maxAmplitude := maxAmplitude WavWriter_new |}.

(** A writer holding [2^31] samples (4 GiB of sample data). *)
Definition oversized : WavWriter :=
  {| buffer := repeat 0 (Z.to_nat (2 ^ 31));
     maxAmplitude := maxAmplitude WavWriter_new |}.

(** The stream an outcome carries. *)
Definition stream_of (o : outcome ofstream) : ofstream :=
  match o with
  | Normal file => file
  | _ => {| good := false; room := None; contents := [] |}
  end.

(** The stored sample as the specification describes it: the sample
    [(-1)^s * m * 2^e] times [2^15 - 1], in exact arithmetic, truncated
    toward zero. *)
Definition scaled_trunc (s : bool) (m : positive) (e : Z) : Z :=
  Z.quot (cond_Zopp s (Zpos m) * (2 ^ 15 - 1) * 2 ^ Z.max e 0)
         (2 ^ Z.max (- e) 0).

(** The container as the specification lays it out: the header record,
    then every sample of the buffer, least significant byte first. *)
Definition wav_file_spec (header : wav.Header) (samples : list Z) : list byte :=
  wav.object_bytes header ++ flat_map (fun v => [v mod 256; (v / 256) mod 256]) samples.

(** * Properties *)

(** ** IEEE-754 arithmetic: what rounding does *)

Lemma digits2_pos_size (p : positive) : digits2_pos p = Pos.size p.
Proof. induction p as [p IH|p IH|]; simpl; now rewrite ?IH. Qed.

Lemma Zdigits2_log2 (m : Z) : 0 < m -> Zdigits2 m = Z.log2 m + 1.
Proof.
  destruct m as [|p|p]; try lia. intros _. simpl.
  rewrite digits2_pos_size. destruct p; simpl; lia.
Qed.

Lemma Zdigits2_nonneg (m : Z) : 0 <= Zdigits2 m.
Proof. destruct m; simpl; lia. Qed.

Lemma Zdigits2_pos (m : Z) : 0 < m -> 0 < Zdigits2 m.
Proof. destruct m; simpl; lia. Qed.

Lemma Zdigits2_bounds (m : Z) :
  0 < m -> 2 ^ (Zdigits2 m - 1) <= m < 2 ^ Zdigits2 m.
Proof.
  intro H. rewrite (Zdigits2_log2 m H).
  replace (Z.log2 m + 1 - 1) with (Z.log2 m) by lia.
  apply Z.log2_spec. exact H.
Qed.

Lemma Zdigits2_unique (m k : Z) :
  2 ^ (k - 1) <= m < 2 ^ k -> 0 < m -> Zdigits2 m = k.
Proof.
  intros B H. rewrite (Zdigits2_log2 m H).
  assert (0 < k).
  { destruct (Z.le_gt_cases k 0) as [L|L]; [|exact L].
    exfalso. assert (2 ^ k <= 2 ^ 0) by (apply Z.pow_le_mono_r; lia ).
    simpl in *. lia. }
  rewrite (Z.log2_unique m (k - 1)); lia || (replace (Z.succ (k - 1)) with k by lia; lia).
Qed.

Lemma Zdigits2_div_pow2 (m n : Z) :
  0 <= m -> 0 <= n -> Zdigits2 (m / 2 ^ n) = Z.max (Zdigits2 m - n) 0.
Proof.
  intros Hm Hn. rewrite <- Z.shiftr_div_pow2 by exact Hn.
  destruct (Z.eq_dec m 0) as [->|Nz].
  - rewrite Z.shiftr_0_l. simpl. lia.
  - assert (0 < m) by lia.
    destruct (Z.eq_dec (Z.shiftr m n) 0) as [E|E].
    + rewrite E. simpl.
      apply Z.shiftr_eq_0_iff in E. destruct E as [E|[_ E]]; [lia|].
      rewrite (Zdigits2_log2 m) by lia. lia.
    + assert (0 <= Z.shiftr m n) by (apply Z.shiftr_nonneg; lia).
      rewrite (Zdigits2_log2 (Z.shiftr m n)) by lia.
      rewrite Z.log2_shiftr by lia. rewrite (Zdigits2_log2 m) by lia.
      assert (n <= Z.log2 m).
      { destruct (Z.le_gt_cases n (Z.log2 m)); [lia|].
        exfalso. apply E. apply Z.shiftr_eq_0; lia. }
      lia.
Qed.

Lemma Zdigits2_mul_pow2 (m k : Z) :
  0 < m -> 0 <= k -> Zdigits2 (m * 2 ^ k) = Zdigits2 m + k.
Proof.
  intros Hm Hk.
  assert (0 < m * 2 ^ k) by (apply Z.mul_pos_pos; [lia|apply Z.pow_pos_nonneg; lia]).
  rewrite !Zdigits2_log2 by lia. rewrite Z.log2_mul_pow2 by lia. lia.
Qed.

Lemma Pos_iter_xO (m d : positive) :
  Zpos (Pos.iter xO m d) = Zpos m * 2 ^ Zpos d.
Proof.
  rewrite <- Z.shiftl_mul_pow2 by lia. simpl.
  apply (Pos.iter_swap_gen _ _ Zpos xO (Z.mul 2)). reflexivity.
Qed.

(** ** Shifting right *)

Lemma iter_pos_nat {A : Type} (f : A -> A) (p : positive) (x : A) :
  iter_pos f p x = Nat.iter (Pos.to_nat p) f x.
Proof.
  revert x. induction p as [p IH|p IH|]; intro x; cbn [iter_pos].
  - rewrite !IH, Pos2Nat.inj_xI.
    replace (S (2 * Pos.to_nat p)) with (Pos.to_nat p + S (Pos.to_nat p))%nat
      by lia.
    now rewrite Nat.iter_add, Nat.iter_succ_r.
  - rewrite !IH, Pos2Nat.inj_xO.
    replace (2 * Pos.to_nat p)%nat with (Pos.to_nat p + Pos.to_nat p)%nat
      by lia.
    now rewrite Nat.iter_add.
  - reflexivity.
Qed.

Lemma shr_1_m (mrs : shr_record) :
  0 <= shr_m mrs -> shr_m (shr_1 mrs) = shr_m mrs / 2.
Proof.
  destruct mrs as [m r s]. cbn [shr_m]. intro H.
  rewrite <- Z.div2_div.
  destruct m as [|[p|p|]|p]; try lia; reflexivity.
Qed.

Lemma shr_iter_m (k : nat) (mrs : shr_record) :
  0 <= shr_m mrs ->
  shr_m (Nat.iter k shr_1 mrs) = shr_m mrs / 2 ^ Z.of_nat k.
Proof.
  intro H. induction k as [|k IH].
  - simpl. now rewrite Z.div_1_r.
  - rewrite Nat.iter_succ, shr_1_m, IH.
    + rewrite Nat2Z.inj_succ, Z.pow_succ_r by lia.
      rewrite Z.div_div by (try apply Z.pow_pos_nonneg; lia).
      f_equal. lia.
    + rewrite IH. apply Z.div_pos; [lia|apply Z.pow_pos_nonneg; lia].
Qed.

Lemma shr_1_exact (m : Z) :
  0 <= m ->
  shr_1 (Build_shr_record (2 * m) false false) = Build_shr_record m false false.
Proof. destruct m; simpl; try lia; reflexivity. Qed.

Lemma shr_iter_exact (k : nat) (m : Z) :
  0 <= m ->
  Nat.iter k shr_1 (Build_shr_record (m * 2 ^ Z.of_nat k) false false) =
  Build_shr_record m false false.
Proof.
  intro H. revert m H. induction k as [|k IH]; intros m H.
  - simpl. f_equal. lia.
  - rewrite Nat.iter_succ_r, Nat2Z.inj_succ, Z.pow_succ_r by lia.
    replace (m * (2 * 2 ^ Z.of_nat k)) with (2 * (m * 2 ^ Z.of_nat k)) by lia.
    rewrite shr_1_exact.
    + apply IH. exact H.
    + apply Z.mul_nonneg_nonneg; [lia|apply Z.pow_nonneg; lia].
Qed.

Lemma shr_m_of_loc (m : Z) (l : location) : shr_m (shr_record_of_loc m l) = m.
Proof. destruct l as [|[]]; reflexivity. Qed.

(** [shr] by a non-negative count divides the mantissa. *)
Lemma shr_spec (mrs : shr_record) (e n : Z) :
  0 <= shr_m mrs -> 0 <= n ->
  snd (shr mrs e n) = e + n /\
  shr_m (fst (shr mrs e n)) = shr_m mrs / 2 ^ n.
Proof.
  intros Hm Hn. destruct n as [|p|p]; try lia; unfold shr; cbn [fst snd].
  - split; [lia|]. now rewrite Z.div_1_r.
  - split; [reflexivity|].
    rewrite iter_pos_nat, shr_iter_m by exact Hm.
    now rewrite positive_nat_Z.
Qed.

Lemma shr_exact (m e n : Z) :
  0 <= m -> 0 <= n ->
  shr (Build_shr_record (m * 2 ^ n) false false) e n =
  (Build_shr_record m false false, e + n).
Proof.
  intros Hm Hn. destruct n as [|p|p]; try lia; unfold shr.
  - f_equal; [f_equal|]; lia.
  - rewrite iter_pos_nat. rewrite <- (positive_nat_Z p) at 1.
    now rewrite shr_iter_exact.
Qed.

Lemma round_nearest_even_bounds (m : Z) (l : location) :
  m <= round_nearest_even m l <= m + 1.
Proof. destruct l as [|[]]; simpl; try lia. destruct (Z.even m); lia. Qed.

Lemma Zdigits2_succ (m : Z) :
  0 <= m ->
  Zdigits2 (m + 1) = Zdigits2 m \/
  (Zdigits2 (m + 1) = Zdigits2 m + 1 /\ m + 1 = 2 ^ Zdigits2 m).
Proof.
  intro H. destruct (Z.eq_dec m 0) as [->|Nz]; [right; now split|].
  pose proof (Zdigits2_bounds m ltac:(lia)) as B.
  pose proof (Zdigits2_pos m ltac:(lia)) as P.
  destruct (Z.eq_dec (m + 1) (2 ^ Zdigits2 m)) as [E|E].
  - right. split; [|exact E]. apply Zdigits2_unique; [|lia].
    replace (Zdigits2 m + 1 - 1) with (Zdigits2 m) by lia.
    rewrite Z.pow_add_r by lia. change (2 ^ 1) with 2. lia.
  - left. apply Zdigits2_unique; lia.
Qed.

Section Round.

Variables prec emax : Z.
Hypothesis prec_pos : 0 < prec.

Local Abbreviation fexp := (SpecFloat.fexp prec emax).
Local Abbreviation emin := (SpecFloat.emin prec emax).

Lemma fexp_spec (e : Z) : fexp e = Z.max (e - prec) emin.
Proof. reflexivity. Qed.

(** What [binary_round_aux] returns for a non-negative mantissa whose
    exponent is not above the canonical one. *)
Lemma binary_round_aux_spec (s : bool) (mx ex : Z) (l : location) :
  0 <= mx -> ex <= fexp (Zdigits2 mx + ex) ->
  let e1 := fexp (Zdigits2 mx + ex) in
  let m1 := mx / 2 ^ (e1 - ex) in
  exists M1 : Z,
    m1 <= M1 <= m1 + 1 /\
    (l = loc_Exact -> mx = m1 * 2 ^ (e1 - ex) -> M1 = m1) /\
    let e2 := fexp (Zdigits2 M1 + e1) in
    e1 <= e2 <= e1 + 1 /\
    M1 = (M1 / 2 ^ (e2 - e1)) * 2 ^ (e2 - e1) /\
    (forall M, M1 / 2 ^ (e2 - e1) = Zpos M ->
               canonical_mantissa prec emax M e2 = true) /\
    binary_round_aux prec emax s mx ex l =
      match M1 / 2 ^ (e2 - e1) with
      | Z0 => S754_zero s
      | Zpos M =>
          if e2 <=? emax - prec then S754_finite s M e2
          else S754_infinity s
      | Zneg _ => S754_nan
      end.
Proof.
  intros Hm Hn e1 m1.
  assert (Hm1 : 0 <= m1)
    by (apply Z.div_pos; [lia|apply Z.pow_pos_nonneg; lia]).
  unfold binary_round_aux, shr_fexp. fold e1.
  pose proof (shr_spec (shr_record_of_loc mx l) ex (e1 - ex)) as S1.
  rewrite shr_m_of_loc in S1. specialize (S1 Hm ltac:(lia)).
  destruct (shr (shr_record_of_loc mx l) ex (e1 - ex)) as [mrs' e'] eqn:E1.
  cbn [fst snd] in S1. destruct S1 as [-> S1]. fold m1 in S1.
  replace (ex + (e1 - ex)) with e1 by lia.
  set (M1 := round_nearest_even (shr_m mrs') (loc_of_shr_record mrs')).
  exists M1.
  assert (B1 : m1 <= M1 <= m1 + 1)
    by (unfold M1; rewrite <- S1; apply round_nearest_even_bounds).
  split; [exact B1|]. split.
  { intros -> Ex. unfold M1. revert E1. cbn [shr_record_of_loc].
    rewrite Ex at 1. rewrite shr_exact by lia.
    intro E. injection E as <-. reflexivity. }
  set (e2 := SpecFloat.fexp prec emax (Zdigits2 M1 + e1)). cbv zeta.
  assert (D1 : Zdigits2 m1 = Z.max (Zdigits2 mx - (e1 - ex)) 0)
    by (apply Zdigits2_div_pow2; lia).
  assert (DM : Zdigits2 M1 = Zdigits2 m1 \/
               (Zdigits2 M1 = Zdigits2 m1 + 1 /\ M1 = 2 ^ Zdigits2 m1)).
  { destruct (Z.eq_dec M1 m1) as [->|N]; [now left|].
    replace M1 with (m1 + 1) by lia. apply Zdigits2_succ. exact Hm1. }
  assert (Be : e1 <= e2 <= e1 + 1).
  { unfold e2. unfold e1 in *. rewrite !fexp_spec in *. lia. }
  split; [exact Be|].
  assert (Dv : M1 = M1 / 2 ^ (e2 - e1) * 2 ^ (e2 - e1)).
  { destruct (Z.eq_dec e2 e1) as [->|N].
    - rewrite Z.sub_diag. change (2 ^ 0) with 1.
      now rewrite Z.div_1_r, Z.mul_1_r.
    - replace (e2 - e1) with 1 by lia. change (2 ^ 1) with 2.
      destruct DM as [DM|[DM ->]].
      + exfalso. unfold e2, e1 in *. rewrite !fexp_spec in *. lia.
      + assert (0 < Zdigits2 m1).
        { unfold e2, e1 in *. rewrite !fexp_spec in *. lia. }
        replace (Zdigits2 m1) with (Z.succ (Zdigits2 m1 - 1)) by lia.
        rewrite Z.pow_succ_r by lia.
        rewrite (Z.mul_comm 2), Z.div_mul by lia. reflexivity. }
  split; [exact Dv|].
  pose proof (shr_spec (shr_record_of_loc M1 loc_Exact) e1 (e2 - e1)) as S2.
  rewrite shr_m_of_loc in S2. specialize (S2 ltac:(lia) ltac:(lia)).
  destruct (shr (shr_record_of_loc M1 loc_Exact) e1 (e2 - e1))
    as [mrs'' e''] eqn:E2.
  cbn [fst snd] in S2. destruct S2 as [-> S2]. rewrite S2.
  replace (e1 + (e2 - e1)) with e2 by lia.
  split; [|reflexivity].
  intros M EM. unfold canonical_mantissa. apply Z.eqb_eq.
  pose proof (Zdigits2_div_pow2 M1 (e2 - e1) ltac:(lia) ltac:(lia)) as D2.
  rewrite EM in D2. cbn [Zdigits2] in D2.
  replace (Z.pos (digits2_pos M) + e2) with (Zdigits2 M1 + e1) by lia.
  reflexivity.
Qed.

Lemma shl_align_spec (mx : positive) (ex ex' : Z) :
  snd (shl_align mx ex ex') = Z.min ex ex' /\
  Zpos (fst (shl_align mx ex ex')) = Zpos mx * 2 ^ (ex - Z.min ex ex').
Proof.
  unfold shl_align. destruct (ex' - ex) as [|d|d] eqn:E; cbn [fst snd].
  - replace (Z.min ex ex') with ex by lia.
    rewrite Z.sub_diag. split; lia.
  - replace (Z.min ex ex') with ex by lia.
    rewrite Z.sub_diag. split; lia.
  - replace (Z.min ex ex') with ex' by lia. split; [reflexivity|].
    rewrite Pos_iter_xO. f_equal. f_equal. lia.
Qed.

(** [binary_round] first brings the mantissa to the canonical exponent
    or below, keeping the value. *)
Lemma binary_round_spec (s : bool) (mx : positive) (ex : Z) :
  exists (mz : positive) (ez : Z),
    ez = Z.min ex (fexp (Zpos (digits2_pos mx) + ex)) /\
    Zpos mz = Zpos mx * 2 ^ (ex - ez) /\
    Zdigits2 (Zpos mz) + ez = Zpos (digits2_pos mx) + ex /\
    binary_round prec emax s mx ex =
      binary_round_aux prec emax s (Zpos mz) ez loc_Exact.
Proof.
  unfold binary_round.
  pose proof (shl_align_spec mx ex (fexp (Zpos (digits2_pos mx) + ex)))
    as [A B].
  destruct (shl_align mx ex _) as [mz ez]. cbn [fst snd] in A, B.
  exists mz, ez. split; [exact A|]. rewrite <- A in B.
  split; [exact B|]. split; [|reflexivity].
  rewrite B, Zdigits2_mul_pow2 by lia. cbn [Zdigits2]. lia.
Qed.

(** A value that has a canonical representation is returned as it is. *)
Lemma binary_round_aux_exact (s : bool) (mx M : positive) (ex e : Z) :
  ex <= e -> Zpos mx = Zpos M * 2 ^ (e - ex) ->
  canonical_mantissa prec emax M e = true ->
  binary_round_aux prec emax s (Zpos mx) ex loc_Exact =
    if e <=? emax - prec then S754_finite s M e else S754_infinity s.
Proof.
  intros Le V C. unfold canonical_mantissa in C. apply Z.eqb_eq in C.
  assert (D : Zdigits2 (Zpos mx) + ex = Zpos (digits2_pos M) + e).
  { rewrite V, Zdigits2_mul_pow2 by lia. cbn [Zdigits2]. lia. }
  destruct (binary_round_aux_spec s (Zpos mx) ex loc_Exact)
    as (M1 & B1 & X1 & Be & Dv & _ & R).
  - lia.
  - rewrite D, C. exact Le.
  - rewrite D, C in *.
    assert (Q : Zpos mx / 2 ^ (e - ex) = Zpos M)
      by (rewrite V; apply Z.div_mul; apply Z.pow_nonzero; lia).
    rewrite Q in *. specialize (X1 eq_refl V). subst M1.
    cbn [Zdigits2] in *. rewrite C in *. rewrite Z.sub_diag in R.
    change (2 ^ 0) with 1 in R. rewrite Z.div_1_r in R. exact R.
Qed.

Lemma binary_round_exact (s : bool) (mx M : positive) (ex e : Z) :
  Zpos mx * 2 ^ (ex - Z.min ex e) = Zpos M * 2 ^ (e - Z.min ex e) ->
  canonical_mantissa prec emax M e = true ->
  binary_round prec emax s mx ex =
    if e <=? emax - prec then S754_finite s M e else S754_infinity s.
Proof.
  intros V C.
  assert (D : Zpos (digits2_pos mx) + ex = Zpos (digits2_pos M) + e).
  { assert (E : Zdigits2 (Zpos mx * 2 ^ (ex - Z.min ex e)) =
                Zdigits2 (Zpos M * 2 ^ (e - Z.min ex e))) by now rewrite V.
    rewrite !Zdigits2_mul_pow2 in E by lia. cbn [Zdigits2] in E. lia. }
  destruct (binary_round_spec s mx ex) as (mz & ez & Ez & Vz & _ & ->).
  pose proof C as C'. unfold canonical_mantissa in C'. apply Z.eqb_eq in C'.
  rewrite D, C' in Ez.
  apply binary_round_aux_exact; [lia| |exact C].
  rewrite Vz, Ez.
  destruct (Z.le_ge_cases ex e) as [L|L].
  - rewrite Z.min_l in * by lia. rewrite Z.sub_diag in *.
    change (2 ^ 0) with 1 in *. lia.
  - rewrite Z.min_r in * by lia. rewrite Z.sub_diag in *.
    change (2 ^ 0) with 1 in *. lia.
Qed.

End Round.


(** ** Bytes and slices *)

Lemma le_bytes_length (n : nat) (x : Z) : List.length (le_bytes n x) = n.
Proof.
  revert x. induction n as [|n IH]; intro x; simpl; [reflexivity|].
  now rewrite IH.
Qed.

Lemma le_value_le_bytes (n : nat) (x : Z) :
  le_value (le_bytes n x) = x mod 256 ^ Z.of_nat n.
Proof.
  revert x. induction n as [|n IH]; intro x.
  - simpl. now rewrite Z.mod_1_r.
  - cbn [le_bytes le_value]. rewrite IH.
    rewrite Nat2Z.inj_succ, Z.pow_succ_r by lia.
    rewrite Z.rem_mul_r by lia. reflexivity.
Qed.

Lemma object_bytes_length (h : wav.Header) :
  List.length (wav.object_bytes h) = 44%nat.
Proof. reflexivity. Qed.

Lemma firstn_plus {A : Type} (n m : nat) (l : list A) :
  firstn (n + m) l = firstn n l ++ firstn m (skipn n l).
Proof.
  revert l. induction n as [|n IH]; intros [|x l]; simpl;
    try reflexivity.
  - now rewrite firstn_nil.
  - now rewrite IH.
Qed.

Lemma slice_split (a n m : nat) (bs : list byte) :
  slice a n bs ++ slice (a + n) m bs = slice a (n + m) bs.
Proof.
  unfold slice. rewrite firstn_plus, skipn_skipn.
  now rewrite (Nat.add_comm n a).
Qed.

Lemma slice_all (n : nat) (bs : list byte) :
  (List.length bs <= n)%nat -> slice 0 n bs = bs.
Proof. intro H. unfold slice. simpl. now apply firstn_all2. Qed.

(** ** Quantisation *)

Lemma valid32_finite (s : bool) (m : positive) (e : Z) :
  F32.valid (S754_finite s m e) = true ->
  Zpos (digits2_pos m) <= 24 /\ -149 <= e <= 104 /\
  (Zpos (digits2_pos m) = 24 \/ e = -149).
Proof.
  unfold F32.valid, valid_binary, bounded, canonical_mantissa.
  intro H. apply andb_prop in H. destruct H as [C B].
  apply Z.eqb_eq in C. apply Z.leb_le in B.
  unfold fexp, emin, F32.prec, F32.emax in *. lia.
Qed.

Lemma maxAmplitude_value :
  maxAmplitude WavWriter_new = S754_finite false 9006924376834048 (-38) /\
  maxAmplitude WavWriter_new = F64.of_Z (2 ^ 15 - 1).
Proof. split; vm_compute; reflexivity. Qed.

(** The conversion of a [float] to [double] is exact. *)
Lemma of_float_finite (s : bool) (m : positive) (e : Z) :
  F32.valid (S754_finite s m e) = true ->
  let j := 53 - Zpos (digits2_pos m) in
  F64.of_float (S754_finite s m e) =
    S754_finite s (Z.to_pos (Zpos m * 2 ^ j)) (e - j).
Proof.
  intros V j. apply valid32_finite in V. destruct V as (D & E & _).
  assert (P : 0 < Zpos m * 2 ^ j)
    by (apply Z.mul_pos_pos; [lia|apply Z.pow_pos_nonneg; lia]).
  unfold F64.of_float.
  rewrite (binary_round_exact F64.prec F64.emax ltac:(reflexivity) s m
             (Z.to_pos (Zpos m * 2 ^ j)) e (e - j)).
  - unfold F64.emax, F64.prec.
    destruct (e - j <=? 1024 - 53) eqn:B; [reflexivity|].
    apply Z.leb_gt in B. lia.
  - rewrite Z2Pos.id by exact P.
    rewrite Z.min_r by lia. rewrite Z.sub_diag. change (2 ^ 0) with 1.
    replace (e - (e - j)) with j by lia. lia.
  - unfold canonical_mantissa. apply Z.eqb_eq.
    change (Zpos (digits2_pos (Z.to_pos (Zpos m * 2 ^ j))))
      with (Zdigits2 (Zpos (Z.to_pos (Zpos m * 2 ^ j)))).
    rewrite Z2Pos.id by exact P.
    rewrite Zdigits2_mul_pow2 by lia. cbn [Zdigits2].
    unfold fexp, emin, F64.prec, F64.emax. lia.
Qed.

(** Scaling a [float] by [2^15 - 1] in [double] is exact. *)
Lemma scale_finite (s : bool) (m : positive) (e : Z) :
  F32.valid (S754_finite s m e) = true ->
  let x := Zpos m * 32767 in
  let k := 53 - Zdigits2 x in
  let M := Z.to_pos (x * 2 ^ k) in
  let E := e - k in
  F64.mul (F64.of_float (S754_finite s m e)) (maxAmplitude WavWriter_new)
    = S754_finite s M E /\
  Zpos M = x * 2 ^ k /\ 0 <= k /\
  Z.shiftl (Zpos M) E = Z.shiftl x e.
Proof.
  cbv zeta.
  intro V. rewrite (of_float_finite s m e V).
  apply valid32_finite in V. destruct V as (D & E & _).
  destruct maxAmplitude_value as [-> _].
  set (d := Zpos (digits2_pos m)) in *.
  set (x := Zpos m * 32767).
  assert (Px : 0 < x) by (unfold x; lia).
  set (k := 53 - Zdigits2 x).
  assert (Dx : d <= Zdigits2 x <= d + 15).
  { pose proof (Zdigits2_bounds (Zpos m) ltac:(lia)) as Bm.
    cbn [Zdigits2] in Bm. fold d in Bm.
    rewrite !Zdigits2_log2 by lia. change (Z.log2 (Zpos m) + 1) with (Zdigits2 (Zpos m)) in *.
    assert (Z.log2 (Zpos m) <= Z.log2 x) by (apply Z.log2_le_mono; unfold x; lia).
    assert (Z.log2 x < d + 15).
    { apply Z.log2_lt_pow2; [lia|]. rewrite Z.pow_add_r by lia.
      change (2 ^ 15) with 32768. unfold x. nia. }
    pose proof (Zdigits2_log2 (Zpos m) ltac:(lia)) as L. cbn [Zdigits2] in L. fold d in L.
    lia. }
  assert (Pk : 0 < x * 2 ^ k)
    by (apply Z.mul_pos_pos; [lia|apply Z.pow_pos_nonneg; lia]).
  split; [|split; [now apply Z2Pos.id|split; [lia|]]].
  - unfold F64.mul, SFmul. rewrite xorb_false_r.
    rewrite (binary_round_aux_exact F64.prec F64.emax ltac:(reflexivity) s _
               (Z.to_pos (x * 2 ^ k)) _ (e - k)).
    + unfold F64.emax, F64.prec.
      destruct (e - k <=? 1024 - 53) eqn:B; [reflexivity|].
      apply Z.leb_gt in B. lia.
    + lia.
    + rewrite Pos2Z.inj_mul, !Z2Pos.id by (try apply Z.mul_pos_pos; try apply Z.pow_pos_nonneg; lia).
      replace (e - k - (e - (53 - d) + -38)) with ((53 - d) + 38 - k) by lia.
      change 9006924376834048 with (32767 * 2 ^ 38).
      assert (H : 2 ^ (53 - d) * 2 ^ 38 = 2 ^ k * 2 ^ (53 - d + 38 - k))
        by (rewrite <- !Z.pow_add_r by lia; f_equal; lia).
      transitivity (Zpos m * 32767 * (2 ^ (53 - d) * 2 ^ 38)); [ring|].
      rewrite H. unfold x. ring.
    + unfold canonical_mantissa. apply Z.eqb_eq.
      change (Zpos (digits2_pos (Z.to_pos (x * 2 ^ k))))
        with (Zdigits2 (Zpos (Z.to_pos (x * 2 ^ k)))).
      rewrite Z2Pos.id by exact Pk.
      rewrite Zdigits2_mul_pow2 by lia.
      unfold fexp, emin, F64.prec, F64.emax. lia.
  - rewrite Z2Pos.id by exact Pk.
    rewrite <- Z.shiftl_mul_pow2 by lia.
    rewrite Z.shiftl_shiftl by lia. f_equal. lia.
Qed.

Lemma trunc_scaled (s : bool) (m : positive) (e : Z) :
  cond_Zopp s (Z.shiftl (Zpos m * 32767) e) = scaled_trunc s m e.
Proof.
  unfold scaled_trunc. change (2 ^ 15 - 1) with 32767.
  assert (C : cond_Zopp s (Zpos m) * 32767 = cond_Zopp s (Zpos m * 32767))
    by (destruct s; simpl; lia).
  rewrite C.
  destruct (Z.le_gt_cases 0 e) as [L|L].
  - rewrite Z.max_l, Z.max_r by lia. change (2 ^ 0) with 1.
    rewrite Z.quot_1_r, Z.shiftl_mul_pow2 by lia.
    destruct s; cbn [cond_Zopp]; ring.
  - rewrite Z.max_r, Z.max_l by lia. rewrite Z.mul_1_r.
    replace e with (- - e) at 1 by lia.
    rewrite Z.shiftl_opp_r, Z.shiftr_div_pow2 by lia.
    assert (0 < 2 ^ (- e)) by (apply Z.pow_pos_nonneg; lia).
    destruct s; cbn [cond_Zopp].
    + rewrite Z.quot_opp_l by lia. f_equal.
      symmetry. apply Z.quot_div_nonneg; lia.
    + symmetry. apply Z.quot_div_nonneg; lia.
Qed.

Lemma addSample_finite (self : WavWriter) (s : bool) (m : positive) (e : Z) :
  maxAmplitude self = maxAmplitude WavWriter_new ->
  F32.valid (S754_finite s m e) = true ->
  addSample self (S754_finite s m e) =
    let t := scaled_trunc s m e in
    if (INT16_MIN <=? t) && (t <=? INT16_MAX)
    then Normal (push_back self t) else Undefined.
Proof.
  intros A V. destruct self as [buf amp]. cbn [maxAmplitude] in A. subst amp.
  unfold addSample, push_back. cbn [maxAmplitude buffer].
  destruct (scale_finite s m e V) as (-> & _ & _ & T).
  cbn [cast_int16]. unfold F64.trunc. rewrite T, trunc_scaled.
  cbv zeta. destruct (_ && _); reflexivity.
Qed.

Lemma addSample_zero (self : WavWriter) (s : bool) :
  maxAmplitude self = maxAmplitude WavWriter_new ->
  addSample self (S754_zero s) = Normal (push_back self 0).
Proof.
  intro A. destruct self as [buf amp]. cbn [maxAmplitude] in A. subst amp.
  reflexivity.
Qed.

(** The stored sample is the value times 32767, truncated toward zero. *)
Lemma scaled_trunc_quot (s : bool) (m : positive) (e : Z) :
  -200 <= e ->
  scaled_trunc s m e =
    Z.quot (scaled32 (S754_finite s m e) * 32767) (2 ^ 200).
Proof.
  intro E. unfold scaled_trunc. cbn [scaled32].
  change (2 ^ 15 - 1) with 32767.
  assert (C : cond_Zopp s (Zpos m * 2 ^ (e + 200)) =
              cond_Zopp s (Zpos m) * 2 ^ (e + 200))
    by (destruct s; cbn [cond_Zopp]; ring).
  rewrite C.
  assert (P : 0 < 2 ^ (e + 200)) by (apply Z.pow_pos_nonneg; lia).
  destruct (Z.le_gt_cases 0 e) as [L|L].
  - rewrite Z.max_l, Z.max_r by lia. change (2 ^ 0) with 1.
    rewrite Z.quot_1_r.
    replace (cond_Zopp s (Zpos m) * 2 ^ (e + 200) * 32767)
      with (cond_Zopp s (Zpos m) * 32767 * 2 ^ e * 2 ^ 200)
      by (rewrite Z.pow_add_r by lia; ring).
    rewrite Z.quot_mul; [reflexivity|]. apply Z.pow_nonzero; lia.
  - rewrite Z.max_r, Z.max_l by lia. rewrite Z.mul_1_r.
    replace (2 ^ 200) with (2 ^ (- e) * 2 ^ (e + 200))
      by (rewrite <- Z.pow_add_r by lia; f_equal; lia).
    replace (cond_Zopp s (Zpos m) * 2 ^ (e + 200) * 32767)
      with (cond_Zopp s (Zpos m) * 32767 * 2 ^ (e + 200)) by ring.
    rewrite Z.quot_mul_cancel_r; [reflexivity| |lia].
    apply Z.pow_nonzero; lia.
Qed.

Lemma addSample_nonfinite (self : WavWriter) (x : float) :
  maxAmplitude self = maxAmplitude WavWriter_new ->
  is_finite32 x = false -> addSample self x = Undefined.
Proof.
  intros A F. unfold addSample. rewrite A.
  destruct maxAmplitude_value as [-> _].
  destruct x; try discriminate F; reflexivity.
Qed.

Lemma compare_cont_Eq (a b : positive) :
  Pos.compare_cont Eq a b = Pos.compare a b.
Proof. reflexivity. Qed.

Lemma abs_le_one (s : bool) (m : positive) (e : Z) :
  F32.valid (S754_finite s m e) = true ->
  F32.le (SFabs (S754_finite s m e)) (F32.of_Z 1) = true ->
  e < 0 /\ Zpos m * 32767 <= 32767 * 2 ^ (- e).
Proof.
  intros V L. apply valid32_finite in V. destruct V as (D & E & _).
  pose proof (Zdigits2_bounds (Zpos m) ltac:(lia)) as [_ B].
  cbn [Zdigits2] in B.
  assert (B' : Zpos m < 2 ^ 24).
  { eapply Z.lt_le_trans; [exact B|]. apply Z.pow_le_mono_r; lia. }
  change (2 ^ 24) with 16777216 in B'.
  change (F32.of_Z 1) with (S754_finite false 8388608 (-23)) in L.
  unfold F32.le, SFleb in L. cbn [SFabs SFcompare] in L.
  assert (Q : e < -23 \/ (e = -23 /\ Zpos m <= 8388608)).
  { destruct (Z.compare_spec e (-23)) as [->|Lt|Gt]; [right|left; lia|discriminate].
    split; [reflexivity|].
    rewrite compare_cont_Eq, Pos2Z.inj_compare in L.
    destruct (Z.compare (Zpos m) (Zpos 8388608)) eqn:C; try discriminate L.
    - apply Z.compare_eq in C. lia.
    - rewrite Z.compare_lt_iff in C. lia. }
  split; [lia|].
  destruct Q as [Q|[-> Q]].
  - assert (2 ^ 24 <= 2 ^ (- e)) by (apply Z.pow_le_mono_r; lia).
    change (2 ^ 24) with 16777216 in *. nia.
  - change (2 ^ (- -23)) with 8388608. lia.
Qed.

(** The scaled value of a sample of magnitude at most 1 is at most
    [2^15 - 1] in magnitude, and so is its truncation. *)
Lemma scaled_in_range (s : bool) (m : positive) (e : Z) :
  F32.valid (S754_finite s m e) = true ->
  F32.le (SFabs (S754_finite s m e)) (F32.of_Z 1) = true ->
  SFleb (SFabs (F64.mul (F64.of_float (S754_finite s m e))
                  (maxAmplitude WavWriter_new))) (F64.of_Z 32767) = true /\
  - 32767 <= scaled_trunc s m e <= 32767.
Proof.
  intros V L. destruct (abs_le_one s m e V L) as [Ne B].
  destruct (scale_finite s m e V) as (-> & EM & K & _).
  set (x := Zpos m * 32767) in *.
  assert (P : 0 < 2 ^ (- e)) by (apply Z.pow_pos_nonneg; lia).
  split.
  - change (F64.of_Z 32767) with (S754_finite false 9006924376834048 (-38)).
    unfold SFleb. cbn [SFabs SFcompare].
    set (k := 53 - Zdigits2 x) in *.
    assert (Dx : Zdigits2 x <= 15 - e).
    { rewrite Zdigits2_log2 by (unfold x; lia).
      assert (Z.log2 x < 15 - e); [|lia].
      apply Z.log2_lt_pow2; [unfold x; lia|].
      replace (15 - e) with (15 + - e) by lia.
      rewrite Z.pow_add_r by lia. change (2 ^ 15) with 32768. nia. }
    destruct (Z.compare_spec (e - k) (-38)) as [Ek|Ek|Ek];
      [|reflexivity|lia].
    rewrite compare_cont_Eq, Pos2Z.inj_compare, EM.
    replace (Zpos 9006924376834048) with (32767 * (2 ^ (- e) * 2 ^ k)).
    2:{ rewrite <- Z.pow_add_r by lia. replace (- e + k) with 38 by lia.
        reflexivity. }
    assert (0 < 2 ^ k) by (apply Z.pow_pos_nonneg; lia).
    destruct (Z.compare_spec (x * 2 ^ k) (32767 * (2 ^ (- e) * 2 ^ k)));
      try reflexivity. nia.
  - rewrite <- trunc_scaled. fold x.
    replace e with (- - e) by lia.
    rewrite Z.shiftl_opp_r, Z.shiftr_div_pow2 by lia.
    assert (0 <= x / 2 ^ (- e) <= 32767).
    { split; [apply Z.div_pos; unfold x; lia|].
      apply Z.lt_succ_r, Z.div_lt_upper_bound; lia. }
    destruct s; cbn [cond_Zopp]; lia.
Qed.

(** ** The stream *)

Lemma ofstream_write_good (file : ofstream) (mem : list byte) (a n : Z) :
  good (ofstream_write file mem a n) = true ->
  good file = true /\
  contents (ofstream_write file mem a n) =
    contents file ++ slice (Z.to_nat a) (Z.to_nat n) mem.
Proof.
  unfold ofstream_write. destruct (good file) eqn:G.
  - destruct (room file) as [r|]; [destruct (n <=? r)|]; simpl; intro H;
      (discriminate || now split).
  - rewrite G. discriminate.
Qed.

Lemma ofstream_write_unlimited (file : ofstream) (mem : list byte) (a n : Z) :
  good file = true -> room file = None ->
  good (ofstream_write file mem a n) = true /\
  room (ofstream_write file mem a n) = None.
Proof.
  intros G R. unfold ofstream_write. rewrite G, R. now split.
Qed.

Lemma ofstream_write_bad (file : ofstream) (mem : list byte) (a n : Z) :
  good file = false -> ofstream_write file mem a n = file.
Proof. intro G. unfold ofstream_write. now rewrite G. Qed.

(** The loop, when it leaves the stream good, has appended exactly the
    [remaining] bytes that start at [audioData]. *)
Lemma write_chunks_good (file : ofstream) (mem : list byte)
  (audioData remaining : Z) :
  0 <= audioData ->
  good (write_chunks file mem audioData remaining) = true ->
  good file = true /\
  contents (write_chunks file mem audioData remaining) =
    contents file ++ slice (Z.to_nat audioData) (Z.to_nat remaining) mem.
Proof.
  funelim (write_chunks file mem audioData remaining); intros Ha Hg.
  - clear Heqcall.
    assert (Hws : 0 < Z.min remaining CHUNK_SIZE) by (unfold CHUNK_SIZE; lia).
    destruct (H ltac:(lia) Hg) as [G1 C1].
    destruct (ofstream_write_good _ _ _ _ G1) as [G0 C0].
    split; [exact G0|].
    rewrite C1, C0, <- app_assoc. f_equal.
    rewrite Z2Nat.inj_add by lia. rewrite slice_split. f_equal. lia.
  - split; [exact Hg|].
    replace (Z.to_nat remaining) with 0%nat by lia.
    unfold slice. simpl. now rewrite app_nil_r.
Qed.

(** A destination without a limit never fails. *)
Lemma write_chunks_unlimited (file : ofstream) (mem : list byte)
  (audioData remaining : Z) :
  good file = true -> room file = None ->
  good (write_chunks file mem audioData remaining) = true.
Proof.
  funelim (write_chunks file mem audioData remaining); intros G R.
  - destruct (ofstream_write_unlimited file mem audioData
                (Z.min remaining CHUNK_SIZE) G R) as [G1 R1].
    now apply H.
  - exact G.
Qed.

(** A stream that is already bad is left alone. *)
Lemma write_chunks_bad (file : ofstream) (mem : list byte)
  (audioData remaining : Z) :
  good file = false -> write_chunks file mem audioData remaining = file.
Proof.
  funelim (write_chunks file mem audioData remaining); intros G;
    [|reflexivity].
  rewrite (ofstream_write_bad _ _ _ _ G) in *. now apply H.
Qed.

(** ** The container writer *)

Lemma buffer_bytes_length (self : WavWriter) :
  Z.of_nat (List.length (buffer_bytes self)) = 2 * buffer_size self.
Proof.
  unfold buffer_bytes, buffer_size. induction (buffer self) as [|v l IH].
  - reflexivity.
  - cbn [flat_map List.length]. rewrite length_app.
    unfold int16_bytes at 1. rewrite le_bytes_length. lia.
Qed.

Lemma buffer_size_nonneg (self : WavWriter) : 0 <= buffer_size self.
Proof. unfold buffer_size. lia. Qed.

(** The two fields [writeToFile] assigns, for any buffer. *)
Lemma writeToFile_header_sizes (w : World) (self : WavWriter) :
  wav.dataSize (writeToFile_header w self) = (2 * buffer_size self) mod 2 ^ 32 /\
  wav.chunkSize (writeToFile_header w self) =
    (36 + (2 * buffer_size self) mod 2 ^ 32) mod 2 ^ 32.
Proof.
  unfold writeToFile_header, uint32_t, size_t, wav.HEADER_SIZE. cbn [wav.dataSize wav.chunkSize wav.set_dataSize wav.set_chunkSize].
  replace (buffer_size self * 2) with (2 * buffer_size self) by lia.
  assert (E : ((2 * buffer_size self) mod 2 ^ 64) mod 2 ^ 32 =
              (2 * buffer_size self) mod 2 ^ 32).
  { apply Z.mod_mod_divide. exists (2 ^ 32). reflexivity. }
  rewrite E. split; [reflexivity|]. f_equal. lia.
Qed.

(** Every other field keeps whatever the storage held. *)
Lemma writeToFile_header_static (w : World) (self : WavWriter) :
  let header := writeToFile_header w self in
  let before := indeterminate w in
  wav.riffHeader header = wav.riffHeader before /\
  wav.waveHeader header = wav.waveHeader before /\
  wav.fmtHeader header = wav.fmtHeader before /\
  wav.subchunk1Size header = wav.subchunk1Size before /\
  wav.audioFormat header = wav.audioFormat before /\
  wav.numChannels header = wav.numChannels before /\
  wav.sampleRate header = wav.sampleRate before /\
  wav.byteRate header = wav.byteRate before /\
  wav.blockAlign header = wav.blockAlign before /\
  wav.bitsPerSample header = wav.bitsPerSample before /\
  wav.dataHeader header = wav.dataHeader before.
Proof. repeat split. Qed.

(** [writeToFile] throws exactly when the path cannot be opened. *)
Lemma writeToFile_throws (w : World) (self : WavWriter) (filename : string) :
  (can_open w filename = false ->
   writeToFile w self filename = Thrown ("Could not open file: " ++ filename)) /\
  (can_open w filename = true ->
   exists file, writeToFile w self filename = Normal file).
Proof.
  unfold writeToFile. cbn [ofstream_open good].
  split; intro H; rewrite H; cbn [negb]; [reflexivity|].
  now eexists.
Qed.

(** What a run that leaves the stream good has put into the destination. *)
Lemma writeToFile_contents (w : World) (self : WavWriter) (filename : string)
  (file : ofstream) :
  writeToFile w self filename = Normal file ->
  good file = true ->
  contents file =
    wav.object_bytes (writeToFile_header w self) ++
    firstn (Z.to_nat (wav.dataSize (writeToFile_header w self)))
      (buffer_bytes self).
Proof.
  unfold writeToFile. destruct (negb (good (ofstream_open w filename)));
    [discriminate|].
  intros E G. injection E as <-. unfold ofstream_close in *.
  destruct (write_chunks_good _ _ _ _ (Z.le_refl 0) G) as [G1 C1].
  destruct (ofstream_write_good _ _ _ _ G1) as [_ C0].
  rewrite C1, C0. cbn [ofstream_open contents app].
  reflexivity.
Qed.

(** With no limit on the destination, a run that opens it succeeds. *)
Lemma writeToFile_succeeds (w : World) (self : WavWriter) (filename : string) :
  can_open w filename = true -> space w = None ->
  exists file, writeToFile w self filename = Normal file /\ good file = true.
Proof.
  intros O S. unfold writeToFile. cbn [ofstream_open good]. rewrite O.
  cbn [negb]. eexists. split; [reflexivity|].
  unfold ofstream_close. apply write_chunks_unlimited.
  - apply ofstream_write_unlimited; [exact O | exact S].
  - apply ofstream_write_unlimited; [exact O | exact S].
Qed.

Lemma int16_bytes_spec (v : Z) :
  int16_bytes v = [v mod 256; (v / 256) mod 256].
Proof.
  unfold int16_bytes, uint16_t. cbn [le_bytes]. f_equal; [|f_equal].
  - apply Z.mod_mod_divide. exists 256. reflexivity.
  - change (2 ^ 16) with (256 * 256).
    rewrite Z.rem_mul_r by lia.
    rewrite (Z.mul_comm 256), Z.div_add by lia.
    rewrite Z.div_small by (apply Z.mod_pos_bound; lia).
    rewrite Z.add_0_l. apply Z.mod_mod. lia.
Qed.

Lemma buffer_bytes_spec (self : WavWriter) :
  buffer_bytes self =
  flat_map (fun v => [v mod 256; (v / 256) mod 256]) (buffer self).
Proof.
  unfold buffer_bytes. induction (buffer self) as [|v l IH];
    [reflexivity|].
  cbn [flat_map]. now rewrite IH, int16_bytes_spec.
Qed.

(** The chunked loop leaves the bytes one write of the whole range leaves. *)
Lemma write_chunks_one_write (file : ofstream) (mem : list byte)
  (remaining : Z) :
  good (write_chunks file mem 0 remaining) = true ->
  good (ofstream_write file mem 0 remaining) = true ->
  contents (write_chunks file mem 0 remaining) =
    contents (ofstream_write file mem 0 remaining).
Proof.
  intros G G'.
  destruct (write_chunks_good _ _ _ _ (Z.le_refl 0) G) as [_ C].
  destruct (ofstream_write_good _ _ _ _ G') as [_ C'].
  now rewrite C, C'.
Qed.

Lemma oversized_size : buffer_size oversized = 2 ^ 31.
Proof.
  unfold buffer_size, oversized. cbn [buffer].
  rewrite repeat_length. apply Z2Nat.id. apply Z.pow_nonneg. lia.
Qed.

(** C1 (the code departs from it): on a run whose storage for the local
    [header] holds zero bytes, [writeToFile] of the empty buffer succeeds
    and the 44 bytes it emits carry none of the four tags and none of the
    seven static format values: the only fields the function assigns are
    [dataSize] and [chunkSize]. *)
Theorem header_tags_never_written :
  exists file,
    writeToFile zeroed_world WavWriter_new "audio.wav" = Normal file /\
    good file = true /\
    List.length (contents file) = 44%nat /\
    slice 0 4 (contents file) <> chars "RIFF" /\
    slice 8 4 (contents file) <> chars "WAVE" /\
    slice 12 4 (contents file) <> chars "fmt " /\
    slice 36 4 (contents file) <> chars "data" /\
    le_value (slice 16 4 (contents file)) <> 16 /\
    le_value (slice 20 2 (contents file)) <> 1 /\
    le_value (slice 22 2 (contents file)) <> 1 /\
    le_value (slice 24 4 (contents file)) <> 44100 /\
    le_value (slice 28 4 (contents file)) <> 88200 /\
    le_value (slice 32 2 (contents file)) <> 2 /\
    le_value (slice 34 2 (contents file)) <> 16.
Proof.
  eexists. split; [vm_compute; reflexivity|].
  vm_compute. repeat split; discriminate.
Qed.

(** C2, as stated, fails for a buffer of [2^31] samples: the 32-bit
    [dataSize] field then holds 0. *)
Lemma header_sizes_wrap :
  ~ (wav.dataSize (writeToFile_header zeroed_world oversized)
       = 2 * buffer_size oversized /\
     wav.chunkSize (writeToFile_header zeroed_world oversized)
       = 36 + 2 * buffer_size oversized).
Proof.
  destruct (writeToFile_header_sizes zeroed_world oversized) as [D _].
  rewrite D, oversized_size. intros [H _]. vm_compute in H. discriminate.
Qed.

(** C2 (amended): for every buffer length [L] with [36 + 2 L < 2^32],
    [writeToFile] sets the header's [dataSize] field to [2 L] and its
    [chunkSize] field to [headerSize + dataSize - 8 = 36 + 2 L], and these
    are the values a successful run stores at bytes 40-43 and 4-7. *)
Theorem header_sizes (w : World) (self : WavWriter) :
  36 + 2 * buffer_size self < 2 ^ 32 ->
  let header := writeToFile_header w self in
  wav.dataSize header = 2 * buffer_size self /\
  wav.chunkSize header = 36 + 2 * buffer_size self /\
  wav.chunkSize header = wav.HEADER_SIZE + wav.dataSize header - 8 /\
  forall filename file,
    writeToFile w self filename = Normal file -> good file = true ->
    le_value (slice 40 4 (contents file)) = 2 * buffer_size self /\
    le_value (slice 4 4 (contents file)) = 36 + 2 * buffer_size self.
Proof.
  intros B header.
  pose proof (buffer_size_nonneg self) as P.
  destruct (writeToFile_header_sizes w self) as [D C]. fold header in D, C.
  change (2 ^ 32) with 4294967296 in *.
  rewrite Z.mod_small in D by lia.
  rewrite (Z.mod_small (2 * buffer_size self)) in C by lia.
  rewrite Z.mod_small in C by lia.
  split; [exact D|]. split; [exact C|].
  split; [rewrite C, D; unfold wav.HEADER_SIZE; lia|].
  intros filename file E G.
  rewrite (writeToFile_contents w self filename file E G). fold header.
  split.
  - change (slice 40 4 _) with (le_bytes 4 (wav.dataSize header)).
    rewrite le_value_le_bytes, D. apply Z.mod_small.
    change (256 ^ Z.of_nat 4) with 4294967296. lia.
  - change (slice 4 4 _) with (le_bytes 4 (wav.chunkSize header)).
    rewrite le_value_le_bytes, C. apply Z.mod_small.
    change (256 ^ Z.of_nat 4) with 4294967296. lia.
Qed.

Lemma header_sizes_witness :
  wav.dataSize (writeToFile_header zeroed_world three_samples) = 6 /\
  wav.chunkSize (writeToFile_header zeroed_world three_samples) = 42.
Proof.
  destruct (header_sizes zeroed_world three_samples) as (D & C & _).
  - vm_compute. reflexivity.
  - split; [exact D | exact C].
Defined.

(** Below [2^31] samples the whole buffer follows the header. *)
Lemma file_size_in_range (w : World) (self : WavWriter) (filename : string)
  (file : ofstream) :
  writeToFile w self filename = Normal file ->
  good file = true ->
  buffer_size self < 2 ^ 31 ->
  contents file = wav_file_spec (writeToFile_header w self) (buffer self) /\
  Z.of_nat (List.length (contents file)) = 44 + 2 * buffer_size self.
Proof.
  intros E G B.
  pose proof (writeToFile_contents w self filename file E G) as C.
  destruct (writeToFile_header_sizes w self) as [D _].
  pose proof (buffer_size_nonneg self) as P.
  assert (F : firstn (Z.to_nat (wav.dataSize (writeToFile_header w self)))
                (buffer_bytes self) = buffer_bytes self).
  { apply firstn_all2. rewrite D, Z.mod_small
      by (change (2 ^ 32) with (2 * 2 ^ 31); lia).
    pose proof (buffer_bytes_length self). lia. }
  rewrite F in C. split.
  - rewrite C. unfold wav_file_spec. now rewrite buffer_bytes_spec.
  - rewrite C, length_app, object_bytes_length, Nat2Z.inj_add.
    rewrite buffer_bytes_length. lia.
Qed.

(** C4, as stated, fails for a buffer of [2^31] samples: the run succeeds
    and the destination holds the 44 header bytes and no sample at all. *)
Lemma oversized_file_is_header_only :
  exists file,
    writeToFile zeroed_world oversized "audio.wav" = Normal file /\
    good file = true /\
    Z.of_nat (List.length (contents file)) <> 44 + 2 * buffer_size oversized.
Proof.
  destruct (writeToFile_succeeds zeroed_world oversized "audio.wav"
              eq_refl eq_refl) as (file & E & G).
  exists file. split; [exact E|]. split; [exact G|].
  rewrite (writeToFile_contents _ _ _ _ E G).
  destruct (writeToFile_header_sizes zeroed_world oversized) as [D _].
  rewrite D, oversized_size.
  change (Z.to_nat ((2 * 2 ^ 31) mod 2 ^ 32)) with 0%nat.
  rewrite length_app, object_bytes_length. cbn [firstn List.length].
  change (2 ^ 31) with 2147483648. lia.
Qed.

(** C4 (amended): on a successful [writeToFile] of a buffer of [L]
    samples the destination holds exactly the 44-byte header followed by
    the first [2 L mod 2^32] of the buffer's raw little-endian sample
    bytes, the chunked loop leaving the bytes that one write of that range
    leaves; for [L < 2^31] that is the entire buffer, so the file is the
    header followed by every sample and its size is [44 + 2 L]. *)
Theorem file_is_header_then_samples (w : World) (self : WavWriter)
  (filename : string) (file : ofstream) :
  writeToFile w self filename = Normal file ->
  good file = true ->
  let header := writeToFile_header w self in
  let opened := ofstream_write (ofstream_open w filename)
                  (wav.object_bytes header) 0 wav.sizeof_Header in
  contents file =
    wav.object_bytes header ++
    firstn (Z.to_nat ((2 * buffer_size self) mod 2 ^ 32)) (buffer_bytes self) /\
  (good (ofstream_write opened (buffer_bytes self) 0 (wav.dataSize header)) = true ->
   contents file =
     contents (ofstream_write opened (buffer_bytes self) 0 (wav.dataSize header))) /\
  (buffer_size self < 2 ^ 31 ->
   contents file = wav_file_spec header (buffer self) /\
   Z.of_nat (List.length (contents file)) = 44 + 2 * buffer_size self).
Proof.
  intros E G header opened.
  pose proof (writeToFile_contents w self filename file E G) as C.
  fold header in C.
  destruct (writeToFile_header_sizes w self) as [D _]. fold header in D.
  split; [now rewrite <- D|]. split.
  - intro G1. revert E G. unfold writeToFile.
    destruct (negb (good (ofstream_open w filename))); [discriminate|].
    fold header. fold opened. unfold ofstream_close.
    intros E G. injection E as <-.
    now apply write_chunks_one_write.
  - intro B. now apply (file_size_in_range w self filename file).
Qed.

Lemma file_is_header_then_samples_witness :
  contents (stream_of (writeToFile zeroed_world three_samples "audio.wav")) =
    wav_file_spec (writeToFile_header zeroed_world three_samples) [1; -2; 258] /\
  Z.of_nat (List.length
    (contents (stream_of (writeToFile zeroed_world three_samples "audio.wav"))))
    = 50.
Proof.
  apply (file_is_header_then_samples zeroed_world three_samples "audio.wav"
           (stream_of (writeToFile zeroed_world three_samples "audio.wav"))).
  - vm_compute. reflexivity.
  - vm_compute. reflexivity.
  - vm_compute. reflexivity.
Defined.

(** ** The whole program *)

Lemma addSample_not_thrown (self : WavWriter) (sample : float) (what : string) :
  addSample self sample <> Thrown what.
Proof. unfold addSample. destruct (cast_int16 _); discriminate. Qed.

Lemma generate_not_thrown (sinf : float -> float) (n : nat)
  (oscillator : SineOscillator) (writer : WavWriter) (what : string) :
  generate sinf n oscillator writer <> Thrown what.
Proof.
  revert oscillator writer. induction n as [|n IH]; intros oscillator writer;
    cbn [generate]; [discriminate|].
  destruct (process sinf oscillator) as [sample oscillator'].
  destruct (addSample writer sample) eqn:E; try discriminate.
  - apply IH.
  - now apply addSample_not_thrown in E.
Qed.

(** With the destination full, [writeToFile] still returns normally. *)
Lemma writeToFile_full_disk (self : WavWriter) (filename : string) :
  writeToFile full_disk self filename =
    Normal {| good := false; room := Some 0; contents := [] |}.
Proof.
  unfold writeToFile. cbn [ofstream_open full_disk can_open space good negb].
  unfold ofstream_close. f_equal. now apply write_chunks_bad.
Qed.

(** With a destination that opens but accepts no byte, a run of [main]
    that has a meaning exits with code 0, whatever the sine returns. *)
Lemma main_full_disk (sinf : float -> float) :
  main sinf full_disk = Undefined \/
  main sinf full_disk =
    Normal {| exit_code := 0; stderr := "";
              audio_wav := Some {| good := false; room := Some 0;
                                   contents := [] |} |}.
Proof.
  unfold main, main_try.
  destruct (generate sinf _ _ _) as [writer|what|] eqn:E.
  - right. now rewrite writeToFile_full_disk.
  - now apply generate_not_thrown in E.
  - now left.
Qed.

(** When the path cannot be opened, the run exits with code 1 and one
    diagnostic line. *)
Lemma main_reports_open_failure (sinf : float -> float) :
  main sinf read_only = Undefined \/
  main sinf read_only =
    Normal {| exit_code := 1;
              stderr := "Error: Could not open file: audio.wav" ++ endl;
              audio_wav := None |}.
Proof.
  unfold main, main_try.
  destruct (generate sinf _ _ _) as [writer|what|] eqn:E.
  - right. reflexivity.
  - now apply generate_not_thrown in E.
  - now left.
Qed.

(** Two runs that differ only in what the storage of the local [header]
    held leave different files, whatever the sine returns. *)
Lemma main_two_worlds (sinf : float -> float) :
  can_open zeroed_world = can_open stale_world /\
  space zeroed_world = space stale_world /\
  ((main sinf zeroed_world = Undefined /\ main sinf stale_world = Undefined) \/
   exists file1 file2,
     main sinf zeroed_world =
       Normal {| exit_code := 0; stderr := ""; audio_wav := Some file1 |} /\
     main sinf stale_world =
       Normal {| exit_code := 0; stderr := ""; audio_wav := Some file2 |} /\
     good file1 = true /\ good file2 = true /\
     contents file1 <> contents file2).
Proof.
  split; [reflexivity|]. split; [reflexivity|].
  unfold main, main_try.
  destruct (generate sinf _ _ _) as [writer|what|] eqn:E.
  - right.
    destruct (writeToFile_succeeds zeroed_world writer "audio.wav"
                eq_refl eq_refl) as (f1 & E1 & G1).
    destruct (writeToFile_succeeds stale_world writer "audio.wav"
                eq_refl eq_refl) as (f2 & E2 & G2).
    exists f1, f2. rewrite E1, E2.
    repeat (split; [reflexivity || assumption|]).
    rewrite (writeToFile_contents _ _ _ _ E1 G1).
    rewrite (writeToFile_contents _ _ _ _ E2 G2).
    cbn. discriminate.
  - now apply generate_not_thrown in E.
  - left. now split.
Qed.

(** ** The claims on samples and on the oscillator *)

(** C3: [addSample] scales its input by [2^15 - 1 = 32767] and truncates
    toward zero before appending: the scale factor the constructor
    computes is exactly 32767; for a finite sample [(-1)^s m 2^e] the
    conversion yields the exact product with 32767 truncated toward zero
    (when an [int16_t] can hold it), and the call returns the writer with
    that one value added at the end of the buffer, the earlier samples and
    the scale factor untouched; in particular 1.0 is stored as 32767,
    -1.0 as -32767 and 0.0 as 0. *)
Theorem addSample_quantizes (self : WavWriter) (s : bool) (m : positive)
  (e : Z) :
  maxAmplitude self = maxAmplitude WavWriter_new ->
  F32.valid (S754_finite s m e) = true ->
  let scaled (x : float) := F64.mul (F64.of_float x) (maxAmplitude self) in
  let stored (v : Z) :=
    Normal {| buffer := buffer self ++ [v];
              maxAmplitude := maxAmplitude self |} in
  maxAmplitude self = F64.of_Z (2 ^ 15 - 1) /\
  (let t := scaled_trunc s m e in
   t = Z.quot (scaled32 (S754_finite s m e) * 32767) (2 ^ 200) /\
   cast_int16 (scaled (S754_finite s m e)) =
     (if (INT16_MIN <=? t) && (t <=? INT16_MAX) then Some t else None) /\
   addSample self (S754_finite s m e) =
     (if (INT16_MIN <=? t) && (t <=? INT16_MAX)
      then stored t else Undefined)) /\
  (cast_int16 (scaled (F32.of_Z 1)) = Some 32767 /\
   addSample self (F32.of_Z 1) = stored 32767) /\
  (cast_int16 (scaled (F32.of_Z (-1))) = Some (- 32767) /\
   addSample self (F32.of_Z (-1)) = stored (- 32767)) /\
  (cast_int16 (scaled (S754_zero false)) = Some 0 /\
   addSample self (S754_zero false) = stored 0).
Proof.
  intros A V scaled stored.
  assert (Q : forall s' m' e', F32.valid (S754_finite s' m' e') = true ->
            let t := scaled_trunc s' m' e' in
            cast_int16 (scaled (S754_finite s' m' e')) =
              (if (INT16_MIN <=? t) && (t <=? INT16_MAX)
               then Some t else None) /\
            addSample self (S754_finite s' m' e') =
              (if (INT16_MIN <=? t) && (t <=? INT16_MAX)
               then stored t else Undefined)).
  { intros s' m' e' V' t.
    assert (C : cast_int16 (scaled (S754_finite s' m' e')) =
                (if (INT16_MIN <=? t) && (t <=? INT16_MAX)
                 then Some t else None)).
    { unfold scaled. rewrite A.
      destruct (scale_finite s' m' e' V') as (-> & _ & _ & T).
      cbn [cast_int16]. unfold F64.trunc. rewrite T, trunc_scaled.
      reflexivity. }
    split; [exact C|].
    unfold addSample. fold (scaled (S754_finite s' m' e')). rewrite C.
    unfold push_back, stored. now destruct (_ && _). }
  split; [rewrite A; apply maxAmplitude_value|].
  split; [|split; [|split]].
  - destruct (valid32_finite s m e V) as (_ & Ex & _).
    split; [apply scaled_trunc_quot; lia | now apply Q].
  - change (F32.of_Z 1) with (S754_finite false 8388608 (-23)).
    exact (Q false 8388608%positive (-23) eq_refl).
  - change (F32.of_Z (-1)) with (S754_finite true 8388608 (-23)).
    exact (Q true 8388608%positive (-23) eq_refl).
  - assert (C : cast_int16 (scaled (S754_zero false)) = Some 0).
    { unfold scaled. rewrite A.
      destruct maxAmplitude_value as [-> _]. reflexivity. }
    split; [exact C|].
    unfold addSample. fold (scaled (S754_zero false)). rewrite C.
    reflexivity.
Qed.

Lemma addSample_quantizes_witness :
  addSample WavWriter_new (S754_finite false 12582912 (-24)) =
    Normal {| buffer := [24575];
              maxAmplitude := maxAmplitude WavWriter_new |} /\
  addSample WavWriter_new (F32.of_Z 1) =
    Normal {| buffer := [32767];
              maxAmplitude := maxAmplitude WavWriter_new |}.
Proof.
  destruct (addSample_quantizes WavWriter_new false 12582912 (-24))
    as (_ & (_ & _ & Q) & (_ & O) & _).
  - reflexivity.
  - vm_compute. reflexivity.
  - split; [exact Q | exact O].
Defined.

(** C10: for every sample [s] with [|s| <= 1] the scaled value lies in
    [[-32767, 32767]], so the conversion to [int16_t] is defined (the run
    does not reach its undefined case) and the value stored lies in the
    16-bit signed range; a buffer whose values were in range stays so. *)
Theorem samples_in_range (self : WavWriter) (sample : float) :
  maxAmplitude self = maxAmplitude WavWriter_new ->
  F32.valid sample = true ->
  F32.le (SFabs sample) (F32.of_Z 1) = true ->
  let scaled := F64.mul (F64.of_float sample) (maxAmplitude self) in
  SFleb (SFabs scaled) (F64.of_Z 32767) = true /\
  exists v : Z,
    cast_int16 scaled = Some v /\
    - 32767 <= v <= 32767 /\ in_int16 v /\
    addSample self sample = Normal (push_back self v) /\
    (Forall in_int16 (buffer self) ->
     Forall in_int16 (buffer (push_back self v))).
Proof.
  intros A V L scaled.
  assert (G : forall v, - 32767 <= v <= 32767 ->
            in_int16 v /\
            (Forall in_int16 (buffer self) ->
             Forall in_int16 (buffer (push_back self v)))).
  { intros v B. assert (I : in_int16 v) by (unfold in_int16, INT16_MIN, INT16_MAX; lia).
    split; [exact I|]. intro F. cbn [push_back buffer].
    apply Forall_app. split; [exact F|]. now constructor. }
  assert (One : F32.of_Z 1 = S754_finite false 8388608 (-23)) by reflexivity.
  destruct sample as [s| s | |s m e];
    try (rewrite One in L; discriminate L).
  - split; [unfold scaled; rewrite A; reflexivity|].
    exists 0. split; [unfold scaled; rewrite A; reflexivity|].
    split; [lia|]. destruct (G 0 ltac:(lia)) as [I F].
    split; [exact I|]. split; [now apply addSample_zero | exact F].
  - destruct (scaled_in_range s m e V L) as [B T].
    split; [unfold scaled; rewrite A; exact B|].
    exists (scaled_trunc s m e).
    assert (R : (INT16_MIN <=? scaled_trunc s m e) &&
                (scaled_trunc s m e <=? INT16_MAX) = true).
    { apply andb_true_intro. unfold INT16_MIN, INT16_MAX.
      split; apply Z.leb_le; lia. }
    destruct (G _ T) as [I F].
    split.
    { unfold scaled. rewrite A.
      destruct (scale_finite s m e V) as (-> & _ & _ & Sh).
      cbn [cast_int16]. unfold F64.trunc. rewrite Sh, trunc_scaled.
      cbv zeta. now rewrite R. }
    split; [exact T|]. split; [exact I|]. split; [|exact F].
    rewrite (addSample_finite self s m e A V). cbv zeta. now rewrite R.
Qed.

Lemma samples_in_range_witness :
  exists v : Z,
    addSample WavWriter_new (S754_finite true 12582912 (-24)) =
      Normal (push_back WavWriter_new v) /\ in_int16 v.
Proof.
  destruct (samples_in_range WavWriter_new (S754_finite true 12582912 (-24)))
    as (_ & v & _ & _ & I & E & _).
  - reflexivity.
  - vm_compute. reflexivity.
  - vm_compute. reflexivity.
  - exists v. split; [exact E | exact I].
Defined.

Lemma after_fixed (sinf : float -> float) (n : nat) (self : SineOscillator) :
  frequency (after sinf n self) = frequency self /\
  amplitude (after sinf n self) = amplitude self /\
  angleStep (after sinf n self) = angleStep self.
Proof.
  unfold after. induction n as [|n IH]; [now repeat split|].
  rewrite Nat.iter_succ. cbn [process snd frequency amplitude angleStep].
  exact IH.
Qed.


(** ** The phase of the oscillator *)



Lemma fexp32 (e : Z) : fexp F32.prec F32.emax e = Z.max (e - 24) (-149).
Proof. reflexivity. Qed.

Lemma canonical32_digits (m : positive) (e : Z) :
  canonical32 m e ->
  Zpos (digits2_pos m) <= 24 /\ -149 <= e /\
  (Zpos (digits2_pos m) = 24 \/ e = -149).
Proof.
  unfold canonical32, canonical_mantissa. intro C. apply Z.eqb_eq in C.
  rewrite fexp32 in C. lia.
Qed.

Lemma canonical32_mantissa (m : positive) (e : Z) :
  canonical32 m e ->
  Zpos m < 2 ^ 24 /\ (-149 < e -> 2 ^ 23 <= Zpos m).
Proof.
  intro C. apply canonical32_digits in C. destruct C as (D & E & N).
  pose proof (Zdigits2_bounds (Zpos m) ltac:(lia)) as [L U].
  cbn [Zdigits2] in L, U. split.
  - eapply Z.lt_le_trans; [exact U|]. apply Z.pow_le_mono_r; lia.
  - intro H. destruct N as [N|N]; [|lia]. rewrite N in L. exact L.
Qed.

Lemma pos32_pos (m : positive) (e : Z) : -200 <= e -> 0 < pos32 m e.
Proof.
  intro H. unfold pos32. apply Z.mul_pos_pos; [lia|].
  apply Z.pow_pos_nonneg; lia.
Qed.

(** Among canonical representations a smaller exponent is a smaller value. *)
Lemma canonical32_lt_exp (m1 m2 : positive) (e1 e2 : Z) :
  canonical32 m1 e1 -> canonical32 m2 e2 -> e1 < e2 ->
  pos32 m1 e1 < pos32 m2 e2.
Proof.
  intros C1 C2 L.
  pose proof (canonical32_digits _ _ C1) as (_ & E1 & _).
  destruct (canonical32_mantissa _ _ C1) as [U1 _].
  destruct (canonical32_mantissa _ _ C2) as [_ L2].
  specialize (L2 ltac:(lia)).
  unfold pos32.
  replace (e2 + 200) with ((e2 - e1) + (e1 + 200)) by lia.
  rewrite (Z.pow_add_r 2 (e2 - e1) (e1 + 200)) by lia.
  assert (P : 0 < 2 ^ (e1 + 200)) by (apply Z.pow_pos_nonneg; lia).
  assert (Q : 2 ^ 1 <= 2 ^ (e2 - e1)) by (apply Z.pow_le_mono_r; lia).
  change (2 ^ 1) with 2 in Q. change (2 ^ 24) with 16777216 in U1.
  change (2 ^ 23) with 8388608 in L2.
  assert (Zpos m1 < Zpos m2 * 2 ^ (e2 - e1)) by nia.
  nia.
Qed.

(** On canonical positive values, [SFcompare] compares the values. *)
Lemma compare32 (m1 m2 : positive) (e1 e2 : Z) :
  canonical32 m1 e1 -> canonical32 m2 e2 ->
  SFcompare (S754_finite false m1 e1) (S754_finite false m2 e2) =
    Some (pos32 m1 e1 ?= pos32 m2 e2).
Proof.
  intros C1 C2. cbn [SFcompare]. f_equal.
  destruct (Z.compare_spec e1 e2) as [->|L|L].
  - rewrite compare_cont_Eq, Pos2Z.inj_compare. unfold pos32.
    pose proof (canonical32_digits _ _ C2) as (_ & E2 & _).
    assert (P : 0 < 2 ^ (e2 + 200)) by (apply Z.pow_pos_nonneg; lia).
    destruct (Z.compare_spec (Zpos m1) (Zpos m2)) as [E|L|L]; symmetry.
    + apply Z.compare_eq_iff. now rewrite E.
    + apply Z.compare_lt_iff. nia.
    + apply Z.compare_gt_iff. nia.
  - symmetry. apply Z.compare_lt_iff. now apply canonical32_lt_exp.
  - symmetry. apply Z.compare_gt_iff. now apply canonical32_lt_exp.
Qed.

Lemma digits_exp_mono (mx ex : Z) (Bm : positive) (Be : Z) :
  0 < mx -> -200 <= ex -> -200 <= Be ->
  mx * 2 ^ (ex + 200) <= pos32 Bm Be ->
  Zdigits2 mx + ex <= Zpos (digits2_pos Bm) + Be.
Proof.
  intros Hm Hx Hb V. unfold pos32 in V.
  pose proof (Zdigits2_bounds mx Hm) as [L _].
  pose proof (Zdigits2_bounds (Zpos Bm) ltac:(lia)) as [_ U].
  cbn [Zdigits2] in U.
  pose proof (Zdigits2_pos mx Hm) as Dp.
  assert (A : 2 ^ (Zdigits2 mx - 1 + (ex + 200)) <= mx * 2 ^ (ex + 200)).
  { rewrite (Z.pow_add_r 2 (Zdigits2 mx - 1)) by lia.
    apply Z.mul_le_mono_nonneg_r; [|exact L].
    apply Z.pow_nonneg; lia. }
  assert (B : Zpos Bm * 2 ^ (Be + 200) <
              2 ^ (Zpos (digits2_pos Bm) + (Be + 200))).
  { rewrite (Z.pow_add_r 2 (Zpos (digits2_pos Bm))) by lia.
    apply Z.mul_lt_mono_pos_r; [|exact U].
    apply Z.pow_pos_nonneg; lia. }
  assert (T : 2 ^ (Zdigits2 mx - 1 + (ex + 200)) <
              2 ^ (Zpos (digits2_pos Bm) + (Be + 200))) by lia.
  apply Z.pow_lt_mono_r_iff in T; lia.
Qed.

Lemma round_up_arith (mx m1 M1 b p q g : Z) :
  0 < p -> 0 < q -> 0 < g -> q * m1 <= mx -> M1 <= m1 + 1 ->
  mx * p < b * (g * (q * p)) -> M1 * (q * p) <= b * (g * (q * p)).
Proof.
  intros P Q G Fl B V.
  assert (A1 : mx < b * g * q).
  { apply (Z.mul_lt_mono_pos_r p); [exact P|].
    replace (b * g * q * p) with (b * (g * (q * p))) by ring. exact V. }
  assert (A2 : m1 < b * g).
  { apply (Z.mul_lt_mono_pos_r q); [exact Q|]. lia. }
  replace (b * (g * (q * p))) with (b * g * (q * p)) by ring.
  apply Z.mul_le_mono_nonneg_r; [|lia].
  apply Z.lt_le_incl, Z.mul_pos_pos; assumption.
Qed.

(** Rounding a value that lies strictly below a representable bound
    gives at most that bound. *)
Lemma round_aux_upper (sg : bool) (mx ex : Z) (l : location) (Bm : positive)
  (Be : Z) :
  0 <= mx -> -200 <= ex ->
  ex <= fexp F32.prec F32.emax (Zdigits2 mx + ex) ->
  fexp F32.prec F32.emax (Zdigits2 mx + ex) <= Be ->
  canonical32 Bm Be -> Be <= 104 ->
  mx * 2 ^ (ex + 200) < pos32 Bm Be ->
  binary_round_aux F32.prec F32.emax sg mx ex l = S754_zero sg \/
  exists (M : positive) (e : Z),
    binary_round_aux F32.prec F32.emax sg mx ex l = S754_finite sg M e /\
    F32.valid (S754_finite sg M e) = true /\
    pos32 M e <= pos32 Bm Be.
Proof.
  intros Hm Hx Hn He CB BB V.
  destruct (binary_round_aux_spec F32.prec F32.emax ltac:(reflexivity)
              sg mx ex l Hm Hn) as (M1 & B1 & _ & Be2 & Dv & Can & R).
  set (e1 := fexp F32.prec F32.emax (Zdigits2 mx + ex)) in *.
  set (m1 := mx / 2 ^ (e1 - ex)) in *.
  set (e2 := fexp F32.prec F32.emax (Zdigits2 M1 + e1)) in *.
  assert (P : 0 < 2 ^ (ex + 200)) by (apply Z.pow_pos_nonneg; lia).
  assert (E : 0 < 2 ^ (e1 - ex)) by (apply Z.pow_pos_nonneg; lia).
  assert (G : 0 < 2 ^ (Be - e1)) by (apply Z.pow_pos_nonneg; lia).
  assert (Hm1 : 0 <= m1) by (apply Z.div_pos; lia).
  rewrite R. destruct (M1 / 2 ^ (e2 - e1)) as [|M|M] eqn:Q.
  - now left.
  - right. specialize (Can M eq_refl).
    assert (VM : pos32 M e2 <= pos32 Bm Be).
    { unfold pos32 in *.
      assert (PB : 2 ^ (Be + 200) =
                   2 ^ (Be - e1) * (2 ^ (e1 - ex) * 2 ^ (ex + 200)))
        by (rewrite <- !Z.pow_add_r by lia; f_equal; lia).
      assert (P2 : 2 ^ (e2 + 200) =
                   2 ^ (e2 - e1) * (2 ^ (e1 - ex) * 2 ^ (ex + 200)))
        by (rewrite <- !Z.pow_add_r by lia; f_equal; lia).
      rewrite PB in *. rewrite P2, Z.mul_assoc, <- Dv.
      pose proof (Z.mul_div_le mx (2 ^ (e1 - ex)) E) as Fl. fold m1 in Fl.
      apply (round_up_arith mx m1); try assumption; lia. }
    assert (Le : e2 <= Be).
    { destruct (Z.le_gt_cases e2 Be) as [L|L]; [exact L|].
      pose proof (canonical32_lt_exp Bm M Be e2 CB Can L). lia. }
    exists M, e2. replace (e2 <=? F32.emax - F32.prec) with true.
    + split; [reflexivity|]. split; [|exact VM].
      unfold F32.valid, valid_binary, bounded. apply andb_true_intro.
      split; [exact Can|]. apply Z.leb_le. unfold F32.emax, F32.prec. lia.
    + symmetry. apply Z.leb_le. unfold F32.emax, F32.prec. lia.
  - exfalso.
    assert (0 <= M1 / 2 ^ (e2 - e1)); [|lia].
    apply Z.div_pos; [lia|]. apply Z.pow_pos_nonneg; lia.
Qed.

Lemma round_upper (mx : positive) (ex : Z) (Bm : positive) (Be : Z) :
  -200 <= ex -> canonical32 Bm Be -> Be <= 104 ->
  pos32 mx ex < pos32 Bm Be ->
  binary_round F32.prec F32.emax false mx ex = S754_zero false \/
  exists (M : positive) (e : Z),
    binary_round F32.prec F32.emax false mx ex = S754_finite false M e /\
    F32.valid (S754_finite false M e) = true /\
    pos32 M e <= pos32 Bm Be.
Proof.
  intros Hx CB BB V.
  destruct (binary_round_spec F32.prec F32.emax false mx ex)
    as (mz & ez & Ez & Vz & Dz & ->).
  pose proof (canonical32_digits _ _ CB) as (_ & EB & _).
  rewrite fexp32 in Ez.
  assert (Vz' : Zpos mz * 2 ^ (ez + 200) = pos32 mx ex).
  { unfold pos32. rewrite Vz, <- Z.mul_assoc, <- Z.pow_add_r by lia.
    f_equal. f_equal. lia. }
  apply (round_aux_upper false); try lia.
  - rewrite Dz, fexp32. lia.
  - rewrite Dz.
    pose proof (digits_exp_mono (Zpos mx) ex Bm Be ltac:(lia) Hx ltac:(lia)
                  ltac:(unfold pos32 in *; lia)) as Mo. cbn [Zdigits2] in Mo.
    unfold canonical32, canonical_mantissa in CB. apply Z.eqb_eq in CB.
    rewrite fexp32 in *. lia.
  - exact CB.
Qed.

Lemma valid32_canonical (s : bool) (m : positive) (e : Z) :
  F32.valid (S754_finite s m e) = true -> canonical32 m e /\ e <= 104.
Proof.
  unfold F32.valid, valid_binary, bounded. intro V.
  apply andb_prop in V. destruct V as [C B]. split; [exact C|].
  apply Z.leb_le in B. exact B.
Qed.

Lemma scaled32_nonneg (x : float) : nonneg32 x -> 0 <= scaled32 x.
Proof.
  intros [|m e V]; [reflexivity|]. apply valid32_canonical in V.
  destruct V as [C _]. apply canonical32_digits in C.
  cbn [scaled32 cond_Zopp]. apply Z.lt_le_incl. apply (pos32_pos m e). lia.
Qed.

(** The sum of two non-negative values that stays strictly below a
    representable bound is non-negative and at most that bound. *)
Lemma add_nonneg (a s : float) (Bm : positive) (Be : Z) :
  nonneg32 a -> nonneg32 s -> canonical32 Bm Be -> Be <= 104 ->
  scaled32 a + scaled32 s < pos32 Bm Be ->
  nonneg32 (F32.add a s) /\ scaled32 (F32.add a s) <= pos32 Bm Be.
Proof.
  intros Ha Hs CB BB V.
  pose proof (scaled32_nonneg a Ha) as Pa.
  pose proof (scaled32_nonneg s Hs) as Ps.
  destruct Ha as [|ma ea Va]; destruct Hs as [|ms es Vs];
    cbn [F32.add SFadd scaled32 cond_Zopp] in *; unfold F32.add; cbn [SFadd].
  - split; [constructor|]. lia.
  - split; [now constructor|]. unfold pos32 in *. lia.
  - split; [now constructor|]. unfold pos32 in *. lia.
  - fold (pos32 ma ea) in *. fold (pos32 ms es) in *.
    destruct (valid32_canonical _ _ _ Va) as [Ca _].
    destruct (valid32_canonical _ _ _ Vs) as [Cs _].
    apply canonical32_digits in Ca, Cs.
    set (ez := Z.min ea es).
    destruct (shl_align_spec ma ea ez) as [_ Aa].
    destruct (shl_align_spec ms es ez) as [_ As].
    replace (Z.min ea ez) with ez in Aa by lia.
    replace (Z.min es ez) with ez in As by lia.
    cbn [cond_Zopp]. rewrite <- Pos2Z.inj_add. cbn [binary_normalize].
    set (mz := (fst (shl_align ma ea ez) + fst (shl_align ms es ez))%positive).
    assert (Vz : pos32 mz ez = pos32 ma ea + pos32 ms es).
    { unfold pos32, mz. rewrite Pos2Z.inj_add, Aa, As.
      rewrite Z.mul_add_distr_r, <- !Z.mul_assoc, <- !Z.pow_add_r by lia.
      f_equal; f_equal; f_equal; lia. }
    destruct (round_upper mz ez Bm Be ltac:(lia) CB BB ltac:(lia))
      as [->|(M & e & -> & VM & LM)].
    + split; [constructor|]. cbn [scaled32]. unfold pos32 in *. lia.
    + split; [now constructor|]. exact LM.
Qed.

(** The difference of a value and a smaller one, when it stays strictly
    below a representable bound, is non-negative and at most that bound. *)
Lemma sub_nonneg (r : float) (mt : positive) (et : Z) (Bm : positive)
  (Be : Z) :
  nonneg32 r -> F32.valid (S754_finite false mt et) = true ->
  canonical32 Bm Be -> Be <= 104 ->
  pos32 mt et <= scaled32 r ->
  scaled32 r - pos32 mt et < pos32 Bm Be ->
  nonneg32 (F32.sub r (S754_finite false mt et)) /\
  scaled32 (F32.sub r (S754_finite false mt et)) <= pos32 Bm Be.
Proof.
  intros Hr Vt CB BB Ge V.
  destruct (valid32_canonical _ _ _ Vt) as [Ct _].
  apply canonical32_digits in Ct.
  pose proof (pos32_pos mt et ltac:(lia)) as Pt.
  destruct Hr as [|mr er Vr]; [cbn [scaled32] in Ge; lia|].
  cbn [scaled32 cond_Zopp] in *. fold (pos32 mr er) in *.
  destruct (valid32_canonical _ _ _ Vr) as [Cr _].
  apply canonical32_digits in Cr.
  unfold F32.sub. cbn [SFsub cond_Zopp].
  set (ez := Z.min er et).
  destruct (shl_align_spec mr er ez) as [_ Ar].
  destruct (shl_align_spec mt et ez) as [_ At].
  replace (Z.min er ez) with ez in Ar by lia.
  replace (Z.min et ez) with ez in At by lia.
  assert (D : (Zpos (fst (shl_align mr er ez)) -
               Zpos (fst (shl_align mt et ez))) * 2 ^ (ez + 200) =
              pos32 mr er - pos32 mt et).
  { unfold pos32. rewrite Ar, At.
    rewrite Z.mul_sub_distr_r, <- !Z.mul_assoc, <- !Z.pow_add_r by lia.
    f_equal; f_equal; f_equal; lia. }
  assert (P : 0 < 2 ^ (ez + 200)) by (apply Z.pow_pos_nonneg; lia).
  destruct (Zpos (fst (shl_align mr er ez)) - Zpos (fst (shl_align mt et ez)))
    as [|mz|mz] eqn:Q; cbn [binary_normalize].
  - split; [constructor|]. cbn [scaled32]. unfold pos32 in *. lia.
  - destruct (round_upper mz ez Bm Be ltac:(lia) CB BB
                ltac:(unfold pos32 in *; lia))
      as [->|(M & e & -> & VM & LM)].
    + split; [constructor|]. cbn [scaled32]. unfold pos32 in *. lia.
    + split; [now constructor|]. exact LM.
  - exfalso. assert (Z.neg mz * 2 ^ (ez + 200) < 0) by nia. lia.
Qed.

(** The constants of the oscillator. *)
Lemma TWO_PI_value : TWO_PI = S754_finite false 13176795 (-21).
Proof. reflexivity. Qed.

Lemma SAMPLE_RATE_value :
  F32.of_Z wav.SAMPLE_RATE = S754_finite false 11289600 (-8).
Proof. reflexivity. Qed.

Lemma NYQUIST_value : F32.of_Z 22050 = S754_finite false 11289600 (-9).
Proof. reflexivity. Qed.

(** [TWO_PI * f] for a frequency below half the sample rate. *)
Lemma mul_TWO_PI (m : positive) (e : Z) :
  F32.valid (S754_finite false m e) = true ->
  pos32 m e < pos32 11289600 (-9) ->
  nonneg32 (F32.mul TWO_PI (S754_finite false m e)) /\
  scaled32 (F32.mul TWO_PI (S754_finite false m e)) <= pos32 8388608 (-5).
Proof.
  intros V L. destruct (valid32_canonical _ _ _ V) as [C _].
  apply canonical32_digits in C. destruct C as (_ & E & _).
  rewrite TWO_PI_value. unfold F32.mul. cbn [SFmul xorb].
  assert (P : 0 < 2 ^ (e + 179)) by (apply Z.pow_pos_nonneg; lia).
  assert (Vx : Zpos (13176795 * m) * 2 ^ (-21 + e + 200) <
               pos32 8388608 (-5)).
  { unfold pos32 in *. rewrite Pos2Z.inj_mul.
    replace (-21 + e + 200) with (e + 179) by lia.
    replace (e + 200) with (e + 179 + 21) in L by lia.
    rewrite Z.pow_add_r in L by lia.
    change (2 ^ (-9 + 200)) with (2 ^ 170 * 2 ^ 21) in L.
    change (2 ^ (-5 + 200)) with (2 ^ 170 * 2 ^ 25).
    change (2 ^ 21) with 2097152 in L.
    assert (Zpos m * 2 ^ (e + 179) < 11289600 * 2 ^ 170) by lia.
    assert (0 < 2 ^ 170) by (apply Z.pow_pos_nonneg; lia).
    change (2 ^ 25) with 33554432.
    nia. }
  assert (Dm : 24 <= Zdigits2 (Zpos (13176795 * m))).
  { rewrite Zdigits2_log2 by lia.
    assert (Z.log2 13176795 <= Z.log2 (Zpos (13176795 * m)))
      by (apply Z.log2_le_mono; lia).
    change (Z.log2 13176795) with 23 in *. lia. }
  destruct (round_aux_upper false (Zpos (13176795 * m)) (-21 + e) loc_Exact
              8388608 (-5)) as [->|(M & e' & -> & VM & LM)];
    try lia; try reflexivity.
  - rewrite fexp32. lia.
  - pose proof (digits_exp_mono (Zpos (13176795 * m)) (-21 + e) 8388608 (-5)
                  ltac:(lia) ltac:(lia) ltac:(lia) ltac:(lia)) as Mo.
    change (Zpos (digits2_pos 8388608)) with 24 in Mo.
    rewrite fexp32. lia.
  - split; [constructor|]. cbn [scaled32].
    apply Z.lt_le_incl, pos32_pos. lia.
  - split; [now constructor|]. exact LM.
Qed.

(** The quotient and exponent [SFdiv_core_binary] hands to the rounding. *)
Lemma div_core_spec (prec emax : Z) (m1 m2 : positive) (e1 e2 : Z) :
  let e' := Z.min (fexp prec emax
                     (Zdigits2 (Zpos m1) + e1 - (Zdigits2 (Zpos m2) + e2)))
                  (e1 - e2) in
  exists l : location,
    SFdiv_core_binary prec emax (Zpos m1) e1 (Zpos m2) e2 =
      (Zpos m1 * 2 ^ (e1 - e2 - e') / Zpos m2, e', l).
Proof.
  intro e'. unfold SFdiv_core_binary. fold e'.
  set (s := e1 - e2 - e').
  assert (Hs : 0 <= s) by (unfold s, e'; lia).
  set (m' := match s with
             | 0 => Zpos m1
             | Zpos _ => Z.shiftl (Zpos m1) s
             | Zneg _ => 0
             end).
  assert (Hm : m' = Zpos m1 * 2 ^ s).
  { unfold m'. destruct s as [|p|p] eqn:E; try lia.
    rewrite Z.shiftl_mul_pow2 by lia. reflexivity. }
  destruct (Z.div_eucl m' (Zpos m2)) as [q r] eqn:E.
  exists (new_location (Zpos m2) r). f_equal. f_equal.
  rewrite <- Hm. unfold Z.div. now rewrite E.
Qed.

(** [p / 44100] for a non-negative [p] of at most [2^18]. *)
Lemma div_SAMPLE_RATE (p : float) :
  nonneg32 p -> scaled32 p <= pos32 8388608 (-5) ->
  nonneg32 (F32.div p (F32.of_Z wav.SAMPLE_RATE)) /\
  scaled32 (F32.div p (F32.of_Z wav.SAMPLE_RATE)) <= pos32 12582912 (-21).
Proof.
  intros Hp L. rewrite SAMPLE_RATE_value.
  destruct Hp as [|m e V].
  { unfold F32.div. cbn [SFdiv xorb scaled32]. split; [constructor|].
    apply Z.lt_le_incl, pos32_pos. lia. }
  cbn [scaled32 cond_Zopp] in L. fold (pos32 m e) in L.
  destruct (valid32_canonical _ _ _ V) as [C _].
  apply canonical32_digits in C. destruct C as (D & E & _).
  unfold F32.div. cbn [SFdiv xorb].
  destruct (div_core_spec F32.prec F32.emax m 11289600 e (-8))
    as [l ->].
  change (Zdigits2 (Zpos 11289600)) with 24. rewrite fexp32.
  set (d := Zdigits2 (Zpos m)) in *.
  set (e' := Z.min (Z.max (d + e - (24 + -8) - 24) (-149)) (e - -8)).
  set (s := e - -8 - e').
  set (q := Zpos m * 2 ^ s / 11289600).
  assert (Dp : 0 < d) by (unfold d; cbn [Zdigits2]; lia).
  assert (Hs : 0 <= s) by (unfold s, e'; lia).
  assert (He' : -149 <= e') by (unfold e'; lia).
  assert (Ps : 0 < 2 ^ s) by (apply Z.pow_pos_nonneg; lia).
  assert (Hq : 0 <= q) by (apply Z.div_pos; lia).
  assert (Fl : 11289600 * q <= Zpos m * 2 ^ s)
    by (apply Z.mul_div_le; lia).
  assert (Dme : d + e <= 19).
  { pose proof (digits_exp_mono (Zpos m) e 8388608 (-5) ltac:(lia)
                  ltac:(lia) ltac:(lia) L) as Mo.
    change (Zpos (digits2_pos 8388608)) with 24 in Mo. unfold d. lia. }
  assert (Vq : q * 2 ^ (e' + 200) < pos32 12582912 (-21)).
  { unfold pos32 in *.
    assert (Pe : 0 < 2 ^ (e' + 200)) by (apply Z.pow_pos_nonneg; lia).
    assert (T : Zpos m * 2 ^ s * 2 ^ (e' + 200) =
                Zpos m * 2 ^ (e + 200) * 2 ^ 8).
    { rewrite <- !Z.mul_assoc, <- !Z.pow_add_r by lia.
      f_equal. f_equal. unfold s. lia. }
    change (2 ^ (-5 + 200)) with (2 ^ 179 * 2 ^ 16) in L.
    change (2 ^ (-21 + 200)) with (2 ^ 179).
    assert (0 < 2 ^ 179) by (apply Z.pow_pos_nonneg; lia).
    change (2 ^ 8) with 256 in T. change (2 ^ 16) with 65536 in L.
    assert (11289600 * (q * 2 ^ (e' + 200)) <=
            Zpos m * 2 ^ s * 2 ^ (e' + 200)) by nia.
    nia. }
  assert (Dq : 0 < q -> d + s - 24 <= Zdigits2 q).
  { intro Pq. pose proof (Zdigits2_pos q Pq) as D1.
    destruct (Z.le_gt_cases (d + s - 24) 1) as [Sm|Bg]; [lia|].
    assert (Lw : 2 ^ (d + s - 24 - 1) <= q).
    { apply Z.div_le_lower_bound; [lia|].
      pose proof (Zdigits2_bounds (Zpos m) ltac:(lia)) as [Lm _].
      fold d in Lm.
      assert (2 ^ (d + s - 24 - 1) * 2 ^ 24 <= Zpos m * 2 ^ s).
      { rewrite <- Z.pow_add_r by lia.
        replace (d + s - 24 - 1 + 24) with ((d - 1) + s) by lia.
        rewrite Z.pow_add_r by lia.
        apply Z.mul_le_mono_nonneg_r; lia. }
      assert (0 < 2 ^ (d + s - 24 - 1)) by (apply Z.pow_pos_nonneg; lia).
      change (2 ^ 24) with 16777216 in *. nia. }
    rewrite Zdigits2_log2 by exact Pq.
    apply Z.log2_le_pow2 in Lw; lia. }
  destruct (round_aux_upper false q e' l 12582912 (-21))
    as [->|(M & e2 & -> & VM & LM)]; try lia; try reflexivity.
  - rewrite fexp32.
    destruct (Z.eq_dec q 0) as [Zq|Nq].
    + rewrite Zq. cbn [Zdigits2].
      assert (Sm : Zpos m * 2 ^ s < 11289600).
      { destruct (Z.lt_ge_cases (Zpos m * 2 ^ s) 11289600) as [?|G];
          [assumption|].
        exfalso. assert (1 <= q); [|lia].
        apply Z.div_le_lower_bound; lia. }
      assert (d + s <= 24).
      { pose proof (Zdigits2_bounds (Zpos m) ltac:(lia)) as [Lm _].
        fold d in Lm.
        assert (2 ^ (d - 1 + s) < 2 ^ 24).
        { rewrite Z.pow_add_r by lia. change (2 ^ 24) with 16777216. nia. }
        apply Z.pow_lt_mono_r_iff in H; lia. }
      unfold s, e' in *. lia.
    + specialize (Dq ltac:(lia)). unfold s, e' in *. lia.
  - rewrite fexp32.
    destruct (Z.eq_dec q 0) as [Zq|Nq].
    + rewrite Zq. cbn [Zdigits2]. unfold e'. lia.
    + pose proof (digits_exp_mono q e' 12582912 (-21) ltac:(lia)
                    ltac:(lia) ltac:(lia) ltac:(lia)) as Mo.
      change (Zpos (digits2_pos 12582912)) with 24 in Mo. lia.
  - split; [constructor|]. cbn [scaled32].
    apply Z.lt_le_incl, pos32_pos. lia.
  - split; [now constructor|]. exact LM.
Qed.

Lemma TWO_PI_valid : F32.valid (S754_finite false 13176795 (-21)) = true.
Proof. reflexivity. Qed.

Lemma phase_invariant_in_range (a : float) :
  phase_invariant a -> phase_in_range a.
Proof.
  intros [N L]. pose proof (scaled32_nonneg a N) as P.
  unfold phase_in_range. rewrite TWO_PI_value.
  destruct N as [|m e V].
  - repeat split; reflexivity.
  - cbn [scaled32 cond_Zopp] in *. fold (pos32 m e) in *.
    destruct (valid32_canonical _ _ _ V) as [C _].
    destruct (valid32_canonical _ _ _ TWO_PI_valid) as [CT _].
    split; [exact V|]. split; [reflexivity|]. split.
    + unfold F32.lt, SFltb. rewrite (compare32 m 13176795 e (-21) C CT).
      apply Z.compare_lt_iff in L. now rewrite L.
    + split; [exact P|].
      pose proof (canonical32_digits _ _ C) as (_ & E & _).
      destruct (canonical32_mantissa _ _ C) as [U _].
      change (2 ^ 24) with 16777216 in U.
      destruct (Z.le_gt_cases e (-22)) as [Sm|Bg].
      * assert (W : pos32 m e <= 16777216 * 2 ^ 178).
        { unfold pos32.
          assert (2 ^ (e + 200) <= 2 ^ 178) by (apply Z.pow_le_mono_r; lia).
          assert (0 < 2 ^ (e + 200)) by (apply Z.pow_pos_nonneg; lia).
          nia. }
        change (2 ^ 200) with (4194304 * 2 ^ 178).
        assert (0 < 2 ^ 178) by (apply Z.pow_pos_nonneg; lia).
        change (10 ^ 7) with 10000000. nia.
      * destruct (Z.eq_dec e (-21)) as [->|Ne].
        -- unfold pos32 in *. change (2 ^ (-21 + 200)) with (2 ^ 179) in *.
           change (2 ^ 200) with (2097152 * 2 ^ 179).
           assert (0 < 2 ^ 179) by (apply Z.pow_pos_nonneg; lia).
           assert (Zpos m < 13176795) by nia.
           change (10 ^ 7) with 10000000. nia.
        -- exfalso.
           pose proof (canonical32_lt_exp 13176795 m (-21) e CT C
                         ltac:(lia)). lia.
Qed.

Lemma process_keeps_phase (sinf : float -> float) (self : SineOscillator) :
  phase_invariant (angle self) -> step_invariant (angleStep self) ->
  phase_invariant (angle (snd (process sinf self))).
Proof.
  intros [Na La] [Ns Ls]. unfold process. cbn [snd angle].
  destruct (add_nonneg (angle self) (angleStep self) 13107200 (-20) Na Ns
              ltac:(reflexivity) ltac:(lia)) as [Nr Lr].
  { unfold pos32 in *.
    change (2 ^ (-21 + 200)) with (2 ^ 179) in *.
    change (2 ^ (-20 + 200)) with (2 * 2 ^ 179).
    assert (0 < 2 ^ 179) by (apply Z.pow_pos_nonneg; lia). lia. }
  set (r := F32.add (angle self) (angleStep self)) in *.
  rewrite TWO_PI_value. unfold F32.ge, SFleb.
  destruct (valid32_canonical _ _ _ TWO_PI_valid) as [CT _].
  destruct Nr as [|m e V].
  - cbn [SFcompare]. split; [constructor|]. cbn [scaled32].
    apply pos32_pos. lia.
  - destruct (valid32_canonical _ _ _ V) as [C _].
    rewrite (compare32 13176795 m (-21) e CT C).
    cbn [scaled32 cond_Zopp] in Lr. fold (pos32 m e) in Lr.
    destruct (Z.compare_spec (pos32 13176795 (-21)) (pos32 m e)) as [Q|Q|Q].
    + destruct (sub_nonneg (S754_finite false m e) 13176795 (-21)
                  13107200 (-21) ltac:(now constructor) TWO_PI_valid
                  ltac:(reflexivity) ltac:(lia)) as [N' L'].
      * cbn [scaled32 cond_Zopp]. fold (pos32 m e). lia.
      * cbn [scaled32 cond_Zopp]. fold (pos32 m e). rewrite <- Q.
        rewrite Z.sub_diag. apply pos32_pos. lia.
      * split; [exact N'|]. eapply Z.le_lt_trans; [exact L'|].
        unfold pos32. apply Z.mul_lt_mono_pos_r; [|lia].
        apply Z.pow_pos_nonneg; lia.
    + destruct (sub_nonneg (S754_finite false m e) 13176795 (-21)
                  13107200 (-21) ltac:(now constructor) TWO_PI_valid
                  ltac:(reflexivity) ltac:(lia)) as [N' L'].
      * cbn [scaled32 cond_Zopp]. fold (pos32 m e). lia.
      * cbn [scaled32 cond_Zopp]. fold (pos32 m e).
        unfold pos32 in *.
        change (2 ^ (-21 + 200)) with (2 ^ 179) in *.
        change (2 ^ (-20 + 200)) with (2 * 2 ^ 179) in *.
        assert (0 < 2 ^ 179) by (apply Z.pow_pos_nonneg; lia). lia.
      * split; [exact N'|]. eapply Z.le_lt_trans; [exact L'|].
        unfold pos32. apply Z.mul_lt_mono_pos_r; [|lia].
        apply Z.pow_pos_nonneg; lia.
    + split; [now constructor|]. cbn [scaled32 cond_Zopp].
      fold (pos32 m e). lia.
Qed.

Lemma SineOscillator_new_step (freq amp : float) :
  F32.valid freq = true ->
  F32.lt (S754_zero false) freq = true ->
  F32.lt freq (F32.of_Z 22050) = true ->
  step_invariant (angleStep (SineOscillator_new freq amp)).
Proof.
  intros V P L. cbn [SineOscillator_new angleStep]. unfold step_invariant.
  rewrite NYQUIST_value in L.
  destruct freq as [s|s| |s m e]; try discriminate.
  - destruct s; discriminate.
  - destruct s; [discriminate|].
    destruct (valid32_canonical _ _ _ V) as [C _].
    assert (CN : canonical32 11289600 (-9)) by reflexivity.
    unfold F32.lt, SFltb in L. rewrite (compare32 m 11289600 e (-9) C CN) in L.
    destruct (Z.compare_spec (pos32 m e) (pos32 11289600 (-9))) as [Q|Q|Q];
      try discriminate.
    destruct (mul_TWO_PI m e V Q) as [Np Lp].
    now apply div_SAMPLE_RATE.
Qed.

Lemma after_keeps_phase (sinf : float -> float) (n : nat)
  (self : SineOscillator) :
  phase_invariant (angle self) -> step_invariant (angleStep self) ->
  phase_invariant (angle (after sinf n self)).
Proof.
  intros Ha Hs. induction n as [|n IH]; [exact Ha|].
  unfold after in *. rewrite Nat.iter_succ.
  apply process_keeps_phase; [exact IH|].
  fold (after sinf n self).
  destruct (after_fixed sinf n self) as (_ & _ & ->). exact Hs.
Qed.

(** C5: for every frequency [f] with [0 < f < 44100 / 2] and starting
    phase 0, the phase angle is in [[0, 2 pi)] after every number of
    [process] calls, whatever the sine returns: it is a finite value that
    compares [>= 0] and [< TWO_PI] and lies below 6.2831853. *)
Theorem phase_stays_in_range (sinf : float -> float) (freq amp : float)
  (n : nat) :
  F32.valid freq = true ->
  F32.lt (S754_zero false) freq = true ->
  F32.lt freq (F32.of_Z 22050) = true ->
  phase_in_range (angle (after sinf n (SineOscillator_new freq amp))).
Proof.
  intros V P L. apply phase_invariant_in_range, after_keeps_phase.
  - split; [constructor|]. cbn [SineOscillator_new angle scaled32].
    apply pos32_pos. lia.
  - now apply SineOscillator_new_step.
Qed.

Lemma phase_stays_in_range_witness :
  phase_in_range
    (angle (after (fun _ => S754_zero false) 100
              (SineOscillator_new FREQUENCY AMPLITUDE))).
Proof.
  apply (phase_stays_in_range (fun _ => S754_zero false) FREQUENCY AMPLITUDE
           100); reflexivity.
Defined.

(** ** The whole program, with a sine that stays in range *)

Lemma ONE_value : F32.of_Z 1 = S754_finite false 8388608 (-23).
Proof. reflexivity. Qed.

(** Half of a value of magnitude at most 1 has magnitude at most 1. *)
Lemma mul_AMPLITUDE (y : float) :
  F32.valid y = true ->
  F32.le (SFabs y) (F32.of_Z 1) = true ->
  F32.valid (F32.mul AMPLITUDE y) = true /\
  F32.le (SFabs (F32.mul AMPLITUDE y)) (F32.of_Z 1) = true.
Proof.
  intros V L. rewrite ONE_value in *.
  assert (C1 : canonical32 8388608 (-23)) by reflexivity.
  destruct y as [s|s| |s m e]; try discriminate.
  - split; reflexivity.
  - destruct (valid32_canonical _ _ _ V) as [C _].
    pose proof (canonical32_digits _ _ C) as (_ & E & _).
    unfold F32.le, SFleb in L. cbn [SFabs] in L.
    rewrite (compare32 m 8388608 e (-23) C C1) in L.
    assert (Lv : pos32 m e <= pos32 8388608 (-23)).
    { destruct (Z.compare_spec (pos32 m e) (pos32 8388608 (-23)));
        try discriminate; lia. }
    unfold AMPLITUDE, F32.mul. cbn [SFmul xorb].
    assert (P : 0 < 2 ^ (e + 176)) by (apply Z.pow_pos_nonneg; lia).
    assert (Vx : Zpos (8388608 * m) * 2 ^ (-24 + e + 200) <
                 pos32 8388608 (-23)).
    { unfold pos32 in *. rewrite Pos2Z.inj_mul.
      replace (-24 + e + 200) with (e + 176) by lia.
      replace (e + 200) with (e + 176 + 24) in Lv by lia.
      rewrite Z.pow_add_r in Lv by lia.
      change (2 ^ (-23 + 200)) with (2 ^ 153 * 2 ^ 24) in *.
      change (2 ^ 24) with 16777216 in *.
      assert (0 < 2 ^ 153) by (apply Z.pow_pos_nonneg; lia). nia. }
    assert (Dm : 24 <= Zdigits2 (Zpos (8388608 * m))).
    { rewrite Zdigits2_log2 by lia.
      assert (Z.log2 8388608 <= Z.log2 (Zpos (8388608 * m)))
        by (apply Z.log2_le_mono; lia).
      change (Z.log2 8388608) with 23 in *. lia. }
    destruct (round_aux_upper s (Zpos (8388608 * m)) (-24 + e) loc_Exact
                8388608 (-23)) as [->|(M & e' & -> & VM & LM)];
      try lia; try reflexivity.
    + rewrite fexp32. lia.
    + pose proof (digits_exp_mono (Zpos (8388608 * m)) (-24 + e) 8388608
                    (-23) ltac:(lia) ltac:(lia) ltac:(lia) ltac:(lia)) as Mo.
      change (Zpos (digits2_pos 8388608)) with 24 in Mo.
      rewrite fexp32. lia.
    + split; reflexivity.
    + split; [exact VM|]. destruct (valid32_canonical _ _ _ VM) as [CM _].
      unfold F32.le, SFleb. cbn [SFabs].
      rewrite (compare32 M 8388608 e' (-23) CM C1).
      destruct (Z.compare_spec (pos32 M e') (pos32 8388608 (-23)));
        try reflexivity. lia.
Qed.

(** A sample of magnitude at most 1 is stored, as a value of magnitude at
    most 32767. *)
Lemma addSample_unit (self : WavWriter) (sample : float) :
  maxAmplitude self = maxAmplitude WavWriter_new ->
  F32.valid sample = true ->
  F32.le (SFabs sample) (F32.of_Z 1) = true ->
  exists v : Z,
    addSample self sample = Normal (push_back self v) /\
    - 32767 <= v <= 32767.
Proof.
  intros A V L. rewrite ONE_value in L.
  destruct sample as [s|s| |s m e]; try discriminate L.
  - exists 0. split; [now apply addSample_zero | lia].
  - rewrite <- ONE_value in L.
    destruct (scaled_in_range s m e V L) as [_ T].
    exists (scaled_trunc s m e). split; [|exact T].
    rewrite (addSample_finite self s m e A V). cbv zeta.
    replace ((INT16_MIN <=? scaled_trunc s m e) &&
             (scaled_trunc s m e <=? INT16_MAX)) with true; [reflexivity|].
    symmetry. apply andb_true_intro. unfold INT16_MIN, INT16_MAX.
    split; apply Z.leb_le; lia.
Qed.

(** With such a sine, the sample loop runs to completion: every cast is
    defined and every stored sample is an [int16_t]. *)
Lemma generate_defined (sinf : float -> float) (n : nat)
  (oscillator : SineOscillator) (writer : WavWriter) :
  sine_in_range sinf ->
  phase_invariant (angle oscillator) ->
  step_invariant (angleStep oscillator) ->
  amplitude oscillator = AMPLITUDE ->
  maxAmplitude writer = maxAmplitude WavWriter_new ->
  Forall in_int16 (buffer writer) ->
  exists writer' : WavWriter,
    generate sinf n oscillator writer = Normal writer' /\
    List.length (buffer writer') = (List.length (buffer writer) + n)%nat /\
    Forall in_int16 (buffer writer') /\
    maxAmplitude writer' = maxAmplitude WavWriter_new.
Proof.
  intro Hs. revert oscillator writer.
  induction n as [|n IH]; intros oscillator writer Pa Ps Am Mx Fb.
  - exists writer. cbn [generate]. rewrite Nat.add_0_r. now repeat split.
  - cbn [generate].
    destruct (process sinf oscillator) as [sample oscillator'] eqn:Ep.
    assert (E1 : sample = F32.mul AMPLITUDE (sinf (angle oscillator))).
    { unfold process in Ep. injection Ep as <- _. now rewrite Am. }
    assert (E2 : oscillator' = snd (process sinf oscillator))
      by now rewrite Ep.
    destruct (Hs _ (phase_invariant_in_range _ Pa)) as [Vy Ly].
    destruct (mul_AMPLITUDE _ Vy Ly) as [Vs Ls]. rewrite <- E1 in Vs, Ls.
    destruct (addSample_unit writer sample Mx Vs Ls) as (v & -> & Bv).
    destruct (IH oscillator' (push_back writer v)) as (w' & G & Len & F & M).
    + rewrite E2. now apply process_keeps_phase.
    + rewrite E2. exact Ps.
    + rewrite E2. exact Am.
    + exact Mx.
    + cbn [push_back buffer]. apply Forall_app. split; [exact Fb|].
      constructor; [|constructor].
      unfold in_int16, INT16_MIN, INT16_MAX. lia.
    + exists w'. split; [exact G|]. split; [|now split].
      rewrite Len. cbn [push_back buffer]. rewrite length_app. cbn. lia.
Qed.

(** With such a sine, a run of [main] has a meaning in every world: it
    exits with code 1 and one diagnostic line when [audio.wav] cannot be
    opened, and with code 0 and nothing on standard error otherwise. *)
Lemma main_defined (sinf : float -> float) (w : World) :
  sine_in_range sinf ->
  exists r : ProcessResult,
    main sinf w = Normal r /\
    (can_open w "audio.wav" = false ->
     exit_code r = 1 /\
     stderr r = ("Error: Could not open file: audio.wav" ++ endl)%string) /\
    (can_open w "audio.wav" = true ->
     exit_code r = 0 /\ stderr r = "").
Proof.
  intro Hs. unfold main, main_try.
  destruct (generate_defined sinf
              (Z.to_nat (uint32_t (wav.SAMPLE_RATE * DURATION_SECONDS)))
              (SineOscillator_new FREQUENCY AMPLITUDE) WavWriter_new Hs)
    as (writer & -> & _).
  - split; [constructor|]. cbn [SineOscillator_new angle scaled32].
    apply pos32_pos. lia.
  - apply SineOscillator_new_step; reflexivity.
  - reflexivity.
  - reflexivity.
  - constructor.
  - destruct (can_open w "audio.wav") eqn:O.
    + destruct (proj2 (writeToFile_throws w writer "audio.wav") O)
        as [file ->].
      eexists. split; [reflexivity|]. split; [discriminate|].
      intros _. now split.
    + rewrite (proj1 (writeToFile_throws w writer "audio.wav") O).
      eexists. split; [reflexivity|]. split; [|discriminate].
      intros _. now split.
Qed.

Lemma silence_in_range : sine_in_range (fun _ => S754_zero false).
Proof. intros a _. split; reflexivity. Qed.

(** A run that can write leaves the 44-byte header and 88200 samples. *)
Lemma main_file_size (sinf : float -> float) (w : World) :
  sine_in_range sinf ->
  can_open w "audio.wav" = true -> space w = None ->
  exists file : ofstream,
    main sinf w =
      Normal {| exit_code := 0; stderr := ""; audio_wav := Some file |} /\
    good file = true /\
    Z.of_nat (List.length (contents file)) = 176444.
Proof.
  intros Hs O S. unfold main, main_try.
  destruct (generate_defined sinf
              (Z.to_nat (uint32_t (wav.SAMPLE_RATE * DURATION_SECONDS)))
              (SineOscillator_new FREQUENCY AMPLITUDE) WavWriter_new Hs)
    as (writer & -> & Len & _).
  - split; [constructor|]. cbn [SineOscillator_new angle scaled32].
    apply pos32_pos. lia.
  - apply SineOscillator_new_step; reflexivity.
  - reflexivity.
  - reflexivity.
  - constructor.
  - destruct (writeToFile_succeeds w writer "audio.wav" O S)
      as (file & E & G).
    rewrite E. exists file. split; [reflexivity|]. split; [exact G|].
    assert (B : buffer_size writer = 88200).
    { unfold buffer_size. rewrite Len. reflexivity. }
    destruct (file_size_in_range w writer "audio.wav" file E G) as [_ Sz].
    + rewrite B. reflexivity.
    + rewrite Sz, B. reflexivity.
Qed.

(** C7 (the code departs from it): with a destination that opens but
    accepts no byte, every write of [writeToFile] fails, yet no error is
    raised: the run of [main] exits with code 0 and an empty standard
    error, leaving a failed stream and an empty file. *)
Theorem main_ignores_failed_writes (sinf : float -> float) :
  sine_in_range sinf ->
  main sinf full_disk =
    Normal {| exit_code := 0; stderr := "";
              audio_wav := Some {| good := false; room := Some 0;
                                   contents := [] |} |}.
Proof.
  intro Hs. destruct (main_full_disk sinf) as [U|N]; [|exact N].
  destruct (main_defined sinf full_disk Hs) as (r & E & _). congruence.
Qed.

Lemma main_ignores_failed_writes_witness :
  main (fun _ => S754_zero false) full_disk =
    Normal {| exit_code := 0; stderr := "";
              audio_wav := Some {| good := false; room := Some 0;
                                   contents := [] |} |}.
Proof.
  apply (main_ignores_failed_writes (fun _ => S754_zero false)).
  intros a _. split; reflexivity.
Defined.




(** ** Samples outside [[-1, 1]] *)

Lemma lt_pos32 (m1 m2 : positive) (e1 e2 : Z) :
  canonical32 m1 e1 -> canonical32 m2 e2 ->
  (F32.lt (S754_finite false m1 e1) (S754_finite false m2 e2) = true <->
   pos32 m1 e1 < pos32 m2 e2).
Proof.
  intros C1 C2. unfold F32.lt, SFltb. rewrite (compare32 m1 m2 e1 e2 C1 C2).
  destruct (Z.compare_spec (pos32 m1 e1) (pos32 m2 e2)) as [Q|Q|Q]; split;
    intro H; try reflexivity; try discriminate H; lia.
Qed.

Lemma int16_of_low_bits_spec (r : Z) :
  in_int16 (int16_of_low_bits r) /\
  (exists k : Z, int16_of_low_bits r = r + k * 2 ^ 16) /\
  (in_int16 r -> int16_of_low_bits r = r).
Proof.
  unfold int16_of_low_bits, in_int16, INT16_MIN, INT16_MAX.
  change (2 ^ 15) with 32768. change (2 ^ 16) with 65536.
  pose proof (Z.mod_pos_bound (r + 32768) 65536 ltac:(lia)) as B.
  split; [lia|]. split.
  - exists (- ((r + 32768) / 65536)).
    pose proof (Z.div_mod (r + 32768) 65536 ltac:(lia)). lia.
  - intro R. rewrite Z.mod_small by lia. lia.
Qed.

(** What the x86-64 conversion stores for a finite sample. *)
Lemma addSample_x86_64_finite (self : WavWriter) (s : bool) (m : positive)
  (e : Z) :
  maxAmplitude self = maxAmplitude WavWriter_new ->
  F32.valid (S754_finite s m e) = true ->
  addSample_x86_64 self (S754_finite s m e) =
    let t := scaled_trunc s m e in
    push_back self
      (if (- 2 ^ 31 <=? t) && (t <? 2 ^ 31) then int16_of_low_bits t else 0).
Proof.
  intros A V. unfold addSample_x86_64. rewrite A.
  destruct (scale_finite s m e V) as (-> & _ & _ & T).
  unfold cast_int16_x86_64, cvttsd2si, F64.trunc. rewrite T, trunc_scaled.
  cbv zeta. now destruct (_ && _).
Qed.

Lemma addSample_x86_64_infinity (self : WavWriter) (sign : bool) :
  addSample_x86_64 self (S754_infinity sign) = push_back self 0.
Proof.
  unfold addSample_x86_64. f_equal.
  destruct (maxAmplitude self) as [s|s| |s m e]; reflexivity.
Qed.

(** C8 (amended): [addSample] performs no range clamping.  For a finite
    input outside [[-1, 1]] the product with 32767, truncated toward zero
    to [t], has magnitude at least 32767; when an [int16_t] can hold [t]
    it is stored as it is (-32768 included), otherwise the conversion has
    no defined result in C++.  As x86-64 compilers perform the conversion,
    the value stored is [t] reduced to 16 bits in two's complement
    (wrapping, never saturating) as long as [t] fits in 32 bits, and 0
    beyond that and for an infinity. *)
Theorem addSample_does_not_clamp (self : WavWriter) (s : bool) (m : positive)
  (e : Z) :
  maxAmplitude self = maxAmplitude WavWriter_new ->
  F32.valid (S754_finite s m e) = true ->
  F32.lt (F32.of_Z 1) (SFabs (S754_finite s m e)) = true ->
  let x := S754_finite s m e in
  let t := Z.quot (scaled32 x * 32767) (2 ^ 200) in
  let stored (v : Z) :=
    {| buffer := buffer self ++ [v]; maxAmplitude := maxAmplitude self |} in
  32767 <= Z.abs t /\
  addSample self x =
    (if (INT16_MIN <=? t) && (t <=? INT16_MAX)
     then Normal (stored t) else Undefined) /\
  addSample_x86_64 self x =
    stored (if (- 2 ^ 31 <=? t) && (t <? 2 ^ 31)
            then int16_of_low_bits t else 0) /\
  in_int16 (int16_of_low_bits t) /\
  (exists k : Z, int16_of_low_bits t = t + k * 2 ^ 16) /\
  (in_int16 t -> int16_of_low_bits t = t) /\
  (forall sign : bool,
     addSample self (S754_infinity sign) = Undefined /\
     addSample_x86_64 self (S754_infinity sign) = stored 0).
Proof.
  intros A V L x t stored. subst x.
  destruct (valid32_finite s m e V) as (_ & Ex & _).
  destruct (valid32_canonical _ _ _ V) as [C _].
  assert (Et : scaled_trunc s m e = t)
    by (unfold t; apply scaled_trunc_quot; lia).
  split; [|split; [|split; [|split; [|split; [|split]]]]];
    try apply int16_of_low_bits_spec.
  - rewrite ONE_value in L. cbn [SFabs] in L.
    apply (lt_pos32 8388608 m (-23) e) in L; [|reflexivity|exact C].
    unfold pos32 in L. change (8388608 * 2 ^ (-23 + 200)) with (2 ^ 200) in L.
    assert (P : 0 < 2 ^ 200) by (apply Z.pow_pos_nonneg; lia).
    unfold t. rewrite <- Z.quot_abs by lia.
    rewrite Z.abs_mul, (Z.abs_eq (2 ^ 200)) by lia.
    change (Z.abs 32767) with 32767.
    assert (Ab : 2 ^ 200 < Z.abs (scaled32 (S754_finite s m e))).
    { cbn [scaled32]. destruct s; cbn [cond_Zopp]; lia. }
    rewrite Z.quot_div_nonneg by lia.
    apply Z.div_le_lower_bound; lia.
  - rewrite (addSample_finite self s m e A V). cbv zeta. rewrite Et.
    unfold push_back, stored. reflexivity.
  - rewrite (addSample_x86_64_finite self s m e A V). cbv zeta. rewrite Et.
    unfold push_back, stored. reflexivity.
  - intro sign. split.
    + now apply addSample_nonfinite.
    + apply addSample_x86_64_infinity.
Qed.

Lemma addSample_does_not_clamp_witness :
  addSample WavWriter_new (S754_finite true 8389120 (-23)) =
    Normal {| buffer := [-32768];
              maxAmplitude := maxAmplitude WavWriter_new |} /\
  addSample WavWriter_new (F32.of_Z 2) = Undefined /\
  buffer (addSample_x86_64 WavWriter_new (F32.of_Z 2)) = [-2].
Proof.
  destruct (addSample_does_not_clamp WavWriter_new true 8389120 (-23))
    as (_ & L & _); try reflexivity.
  destruct (addSample_does_not_clamp WavWriter_new false 8388608 (-22))
    as (_ & U & P & _); try reflexivity.
  split; [exact L|]. split; [exact U|].
  change (F32.of_Z 2) with (S754_finite false 8388608 (-22)).
  rewrite P. reflexivity.
Defined.

(** C8, as stated, fails for the input 65539.0: the scaled value
    2147516413 reduced to 16 bits in two's complement is 32765, but the
    conversion is undefined in C++ and stores 0 as x86-64 performs it. *)
Lemma addSample_wrap_fails :
  let x := S754_finite false 8388992 (-7) in
  F32.valid x = true /\
  F32.lt (F32.of_Z 1) (SFabs x) = true /\
  Z.quot (scaled32 x * 32767) (2 ^ 200) = 2147516413 /\
  int16_of_low_bits 2147516413 = 32765 /\
  addSample WavWriter_new x = Undefined /\
  buffer (addSample_x86_64 WavWriter_new x) = [0].
Proof. repeat split; vm_compute; reflexivity. Qed.

(** * Further properties of the code *)

(** ** The quantiser as a function of the value *)

Lemma push_back_inj (self : WavWriter) (v v' : Z) :
  push_back self v = push_back self v' -> v = v'.
Proof.
  unfold push_back. intro E. injection E as E.
  apply app_inj_tail in E. now destruct E.
Qed.

Lemma push_back_inj_normal (self : WavWriter) (v v' : Z) :
  Normal (push_back self v) = Normal (push_back self v') -> v = v'.
Proof. intro E. injection E as E. apply app_inj_tail in E. now destruct E. Qed.

(** What [addSample] stores, whenever it stores something. *)
Lemma addSample_value (self : WavWriter) (x : float) (self' : WavWriter) :
  maxAmplitude self = maxAmplitude WavWriter_new ->
  F32.valid x = true ->
  addSample self x = Normal self' ->
  let v := Z.quot (scaled32 x * 32767) (2 ^ 200) in
  self' = push_back self v /\ in_int16 v.
Proof.
  intros A V E v. destruct x as [s|s| |s m e].
  - rewrite (addSample_zero self s A) in E. injection E as <-.
    split; [reflexivity|]. unfold in_int16, INT16_MIN, INT16_MAX. cbn. lia.
  - exfalso. unfold addSample in E. rewrite A in E.
    destruct maxAmplitude_value as [Mx _]. rewrite Mx in E. discriminate E.
  - exfalso. unfold addSample in E. rewrite A in E.
    destruct maxAmplitude_value as [Mx _]. rewrite Mx in E. discriminate E.
  - destruct (valid32_finite s m e V) as (_ & Ex & _).
    rewrite (addSample_finite self s m e A V) in E. cbv zeta in E.
    unfold v. rewrite <- scaled_trunc_quot by lia.
    destruct ((INT16_MIN <=? scaled_trunc s m e) &&
              (scaled_trunc s m e <=? INT16_MAX)) eqn:R; [|discriminate E].
    injection E as <-. split; [reflexivity|].
    apply andb_prop in R. destruct R as [R1 R2].
    apply Z.leb_le in R1, R2. now split.
Qed.

Lemma quot_bounds (a p lo hi : Z) :
  0 < p -> lo <= 0 <= hi ->
  (lo <= Z.quot a p <= hi <-> (lo - 1) * p < a < (hi + 1) * p).
Proof.
  intros P B. destruct (Z.le_gt_cases 0 a) as [N|N].
  - rewrite Z.quot_div_nonneg by lia.
    pose proof (Z.div_mod a p ltac:(lia)) as D.
    pose proof (Z.mod_pos_bound a p P) as M.
    pose proof (Z.div_pos a p N P) as Q.
    split.
    + intros [H1 H2]. split; [nia|].
      assert (p * (a / p) <= p * hi)
        by (apply Z.mul_le_mono_nonneg_l; lia).
      lia.
    + intros [H1 H2]. split; [lia|].
      apply Z.lt_succ_r. apply Z.div_lt_upper_bound; lia.
  - assert (Eq : Z.quot a p = - (- a / p)).
    { replace a with (- - a) at 1 by lia.
      rewrite Z.quot_opp_l by lia. now rewrite Z.quot_div_nonneg by lia. }
    rewrite Eq.
    pose proof (Z.div_mod (- a) p ltac:(lia)) as D.
    pose proof (Z.mod_pos_bound (- a) p P) as M.
    pose proof (Z.div_pos (- a) p ltac:(lia) P) as Q.
    split.
    + intros [H1 H2]. split; [|nia].
      assert (p * (- a / p) <= p * (- lo))
        by (apply Z.mul_le_mono_nonneg_l; lia).
      lia.
    + intros [H1 H2]. split; [|lia].
      assert (- a / p < 1 - lo); [|lia].
      apply Z.div_lt_upper_bound; lia.
Qed.

(** On valid finite values, [<=] on [float] is [<=] on the values. *)
Lemma le_scaled32 (x y : float) :
  F32.valid x = true -> F32.valid y = true ->
  is_finite32 x = true -> is_finite32 y = true ->
  F32.le x y = true -> scaled32 x <= scaled32 y.
Proof.
  intros Vx Vy Fx Fy. unfold F32.le, SFleb.
  destruct x as [sx|sx| |sx mx ex]; try discriminate Fx;
    destruct y as [sy|sy| |sy my ey]; try discriminate Fy;
    cbn [scaled32].
  - lia.
  - destruct (valid32_finite _ _ _ Vy) as (_ & E & _).
    pose proof (pos32_pos my ey ltac:(lia)) as P. unfold pos32 in P.
    cbn [SFcompare]. destruct sy; [discriminate|]. cbn [cond_Zopp]. lia.
  - destruct (valid32_finite _ _ _ Vx) as (_ & E & _).
    pose proof (pos32_pos mx ex ltac:(lia)) as P. unfold pos32 in P.
    cbn [SFcompare]. destruct sx; [|discriminate]. cbn [cond_Zopp]. lia.
  - destruct (valid32_canonical _ _ _ Vx) as [Cx _].
    destruct (valid32_canonical _ _ _ Vy) as [Cy _].
    pose proof (canonical32_digits _ _ Cx) as (_ & Ex & _).
    pose proof (canonical32_digits _ _ Cy) as (_ & Ey & _).
    pose proof (pos32_pos mx ex ltac:(lia)) as Px.
    pose proof (pos32_pos my ey ltac:(lia)) as Py.
    pose proof (compare32 mx my ex ey Cx Cy) as C.
    fold (pos32 mx ex). fold (pos32 my ey).
    destruct sx, sy; cbn [cond_Zopp].
    + assert (T : SFcompare (S754_finite true mx ex) (S754_finite true my ey)
                  = Some (CompOpp (pos32 mx ex ?= pos32 my ey))).
      { cbn [SFcompare] in *. injection C as C. rewrite <- C.
        now destruct (ex ?= ey). }
      rewrite T.
      destruct (Z.compare_spec (pos32 mx ex) (pos32 my ey));
        cbn [CompOpp]; try discriminate; lia.
    + intros _. lia.
    + discriminate.
    + rewrite C.
      destruct (Z.compare_spec (pos32 mx ex) (pos32 my ey));
        try discriminate; lia.
Qed.

(** X1: for a [float] [x], [addSample] stores a sample exactly when [x] is
    finite and [32767 x] lies strictly between -32769 and 32768, that is
    when the truncated product is an [int16_t]; in every other case
    (an infinity, a NaN, a magnitude too large) the conversion, and with it
    the call, is undefined: [addSample] neither throws nor clamps. *)
Theorem addSample_defined_iff (self : WavWriter) (x : float) :
  maxAmplitude self = maxAmplitude WavWriter_new ->
  F32.valid x = true ->
  ((exists self', addSample self x = Normal self') <->
   (is_finite32 x = true /\
    - 32769 * 2 ^ 200 < scaled32 x * 32767 < 32768 * 2 ^ 200)) /\
  ((forall self', addSample self x <> Normal self') ->
   addSample self x = Undefined).
Proof.
  intros A V. split.
  - destruct x as [s|s| |s m e].
    + rewrite (addSample_zero self s A). split.
      * intros _. split; [reflexivity|]. cbn [scaled32]. split; reflexivity.
      * intros _. now eexists.
    + rewrite (addSample_nonfinite self (S754_infinity s) A eq_refl). split.
      * intros [w E]. discriminate E.
      * intros [F _]. discriminate F.
    + rewrite (addSample_nonfinite self S754_nan A eq_refl). split.
      * intros [w E]. discriminate E.
      * intros [F _]. discriminate F.
    + destruct (valid32_finite s m e V) as (_ & Ex & _).
      rewrite (addSample_finite self s m e A V). cbv zeta.
      rewrite scaled_trunc_quot by lia.
      set (q := Z.quot (scaled32 (S754_finite s m e) * 32767) (2 ^ 200)).
      pose proof (quot_bounds (scaled32 (S754_finite s m e) * 32767)
                    (2 ^ 200) (-32768) 32767
                    ltac:(apply Z.pow_pos_nonneg; lia) ltac:(lia)) as QB.
      fold q in QB. change (-32768 - 1) with (-32769) in QB.
      change (32767 + 1) with 32768 in QB.
      destruct ((INT16_MIN <=? q) && (q <=? INT16_MAX)) eqn:R.
      * apply andb_prop in R. destruct R as [R1 R2].
        apply Z.leb_le in R1, R2. unfold INT16_MIN, INT16_MAX in *.
        split; [|intros _; now eexists].
        intros _. split; [reflexivity|]. apply QB. lia.
      * split; [intros [w E]; discriminate E|].
        intros [_ B]. apply QB in B. exfalso.
        apply andb_false_iff in R. unfold INT16_MIN, INT16_MAX in R.
        destruct R as [R|R]; apply Z.leb_gt in R; lia.
  - intro N. unfold addSample in *.
    destruct (cast_int16 _) as [z|]; [|reflexivity].
    exfalso. now apply (N (push_back self z)).
Qed.

(** X2: the quantiser is odd: if [x] is stored as [v], and [v] is not
    -32768, then [-x] is stored as [-v] (truncation toward zero is
    symmetric, no sign bias). *)
Theorem addSample_odd (self : WavWriter) (x : float) (v : Z) :
  maxAmplitude self = maxAmplitude WavWriter_new ->
  F32.valid x = true ->
  addSample self x = Normal (push_back self v) ->
  v <> - 32768 ->
  addSample self (SFopp x) = Normal (push_back self (- v)).
Proof.
  intros A V E Nv.
  destruct x as [s|s| |s m e]; cbn [SFopp].
  - rewrite (addSample_zero self s A) in E. injection E as E.
    apply app_inj_tail in E. destruct E as [_ <-].
    now rewrite addSample_zero.
  - rewrite (addSample_nonfinite self (S754_infinity s) A eq_refl) in E. discriminate E.
  - rewrite (addSample_nonfinite self S754_nan A eq_refl) in E. discriminate E.
  - rewrite (addSample_finite self s m e A V) in E. cbv zeta in E.
    rewrite (addSample_finite self (negb s) m e A V). cbv zeta.
    assert (O : scaled_trunc (negb s) m e = - scaled_trunc s m e).
    { unfold scaled_trunc.
      assert (cond_Zopp (negb s) (Zpos m) = - cond_Zopp s (Zpos m))
        as -> by (destruct s; cbn [negb cond_Zopp]; lia).
      rewrite <- Z.quot_opp_l by (apply Z.pow_nonzero; lia).
      f_equal. ring. }
    rewrite O.
    destruct ((INT16_MIN <=? scaled_trunc s m e) &&
              (scaled_trunc s m e <=? INT16_MAX)) eqn:R; [|discriminate E].
    apply push_back_inj_normal in E. subst v.
    apply andb_prop in R. destruct R as [R1 R2].
    apply Z.leb_le in R1, R2. unfold INT16_MIN, INT16_MAX in *.
    replace ((-32768 <=? - scaled_trunc s m e) &&
             (- scaled_trunc s m e <=? 32767)) with true; [reflexivity|].
    symmetry. apply andb_true_intro. split; apply Z.leb_le; lia.
Qed.

(** X3: the quantiser is monotone: if [x <= y] as [float]s and both are
    stored, the value stored for [x] is at most the value stored for
    [y]. *)
Theorem addSample_monotone (self : WavWriter) (x y : float) (vx vy : Z) :
  maxAmplitude self = maxAmplitude WavWriter_new ->
  F32.valid x = true -> F32.valid y = true ->
  F32.le x y = true ->
  addSample self x = Normal (push_back self vx) ->
  addSample self y = Normal (push_back self vy) ->
  vx <= vy.
Proof.
  intros A Vx Vy L Ex Ey.
  assert (Fx : is_finite32 x = true).
  { destruct (is_finite32 x) eqn:F; [reflexivity|].
    rewrite (addSample_nonfinite self x A F) in Ex. discriminate Ex. }
  assert (Fy : is_finite32 y = true).
  { destruct (is_finite32 y) eqn:F; [reflexivity|].
    rewrite (addSample_nonfinite self y A F) in Ey. discriminate Ey. }
  destruct (addSample_value self x _ A Vx Ex) as [Px _].
  destruct (addSample_value self y _ A Vy Ey) as [Py _].
  apply push_back_inj in Px, Py. subst vx vy.
  apply Z.quot_le_mono; [apply Z.pow_pos_nonneg; lia|].
  pose proof (le_scaled32 x y Vx Vy Fx Fy L). lia.
Qed.

Lemma addSample_defined_iff_witness :
  (exists self', addSample WavWriter_new (F32.of_Z 1) = Normal self') <->
  (is_finite32 (F32.of_Z 1) = true /\
   - 32769 * 2 ^ 200 < scaled32 (F32.of_Z 1) * 32767 < 32768 * 2 ^ 200).
Proof.
  apply (addSample_defined_iff WavWriter_new (F32.of_Z 1)); reflexivity.
Defined.

Lemma addSample_odd_witness :
  addSample WavWriter_new (SFopp (S754_finite false 12582912 (-24))) =
    Normal (push_back WavWriter_new (- 24575)).
Proof.
  apply (addSample_odd WavWriter_new (S754_finite false 12582912 (-24)) 24575).
  - reflexivity.
  - reflexivity.
  - vm_compute. reflexivity.
  - discriminate.
Defined.

Lemma addSample_monotone_witness : 16383 <= 24575.
Proof.
  apply (addSample_monotone WavWriter_new
           (S754_finite false 8388608 (-24))
           (S754_finite false 12582912 (-24))).
  - reflexivity.
  - reflexivity.
  - reflexivity.
  - reflexivity.
  - vm_compute. reflexivity.
  - vm_compute. reflexivity.
Defined.

(** ** Values at an arbitrary scale *)

Lemma canonical32_lt_exp_at (K : Z) (m1 m2 : positive) (e1 e2 : Z) :
  149 <= K ->
  canonical32 m1 e1 -> canonical32 m2 e2 -> e1 < e2 ->
  posK K m1 e1 < posK K m2 e2.
Proof.
  intros HK C1 C2 L.
  pose proof (canonical32_digits _ _ C1) as (_ & E1 & _).
  destruct (canonical32_mantissa _ _ C1) as [U1 _].
  destruct (canonical32_mantissa _ _ C2) as [_ L2].
  specialize (L2 ltac:(lia)).
  unfold posK.
  replace (e2 + K) with ((e2 - e1) + (e1 + K)) by lia.
  rewrite (Z.pow_add_r 2 (e2 - e1) (e1 + K)) by lia.
  assert (P : 0 < 2 ^ (e1 + K)) by (apply Z.pow_pos_nonneg; lia).
  assert (Q : 2 ^ 1 <= 2 ^ (e2 - e1)) by (apply Z.pow_le_mono_r; lia).
  change (2 ^ 1) with 2 in Q. change (2 ^ 24) with 16777216 in U1.
  change (2 ^ 23) with 8388608 in L2.
  assert (Zpos m1 < Zpos m2 * 2 ^ (e2 - e1)) by nia.
  nia.
Qed.

Lemma digits_exp_mono_at (K : Z) (mx ex : Z) (Bm : positive) (Be : Z) :
  149 <= K ->
  0 < mx -> - K <= ex -> - K <= Be ->
  mx * 2 ^ (ex + K) <= posK K Bm Be ->
  Zdigits2 mx + ex <= Zpos (digits2_pos Bm) + Be.
Proof.
  intros HK Hm Hx Hb V. unfold posK in V.
  pose proof (Zdigits2_bounds mx Hm) as [L _].
  pose proof (Zdigits2_bounds (Zpos Bm) ltac:(lia)) as [_ U].
  cbn [Zdigits2] in U.
  pose proof (Zdigits2_pos mx Hm) as Dp.
  assert (A : 2 ^ (Zdigits2 mx - 1 + (ex + K)) <= mx * 2 ^ (ex + K)).
  { rewrite (Z.pow_add_r 2 (Zdigits2 mx - 1)) by lia.
    apply Z.mul_le_mono_nonneg_r; [|exact L].
    apply Z.pow_nonneg; lia. }
  assert (B : Zpos Bm * 2 ^ (Be + K) <
              2 ^ (Zpos (digits2_pos Bm) + (Be + K))).
  { rewrite (Z.pow_add_r 2 (Zpos (digits2_pos Bm))) by lia.
    apply Z.mul_lt_mono_pos_r; [|exact U].
    apply Z.pow_pos_nonneg; lia. }
  assert (T : 2 ^ (Zdigits2 mx - 1 + (ex + K)) <
              2 ^ (Zpos (digits2_pos Bm) + (Be + K))) by lia.
  apply Z.pow_lt_mono_r_iff in T; lia.
Qed.

Lemma round_aux_upper_at (K : Z) (sg : bool) (mx ex : Z) (l : location) (Bm : positive)
  (Be : Z) :
  149 <= K ->
  0 <= mx -> - K <= ex ->
  ex <= fexp F32.prec F32.emax (Zdigits2 mx + ex) ->
  fexp F32.prec F32.emax (Zdigits2 mx + ex) <= Be ->
  canonical32 Bm Be -> Be <= 104 ->
  mx * 2 ^ (ex + K) < posK K Bm Be ->
  binary_round_aux F32.prec F32.emax sg mx ex l = S754_zero sg \/
  exists (M : positive) (e : Z),
    binary_round_aux F32.prec F32.emax sg mx ex l = S754_finite sg M e /\
    F32.valid (S754_finite sg M e) = true /\
    posK K M e <= posK K Bm Be.
Proof.
  intros HK Hm Hx Hn He CB BB V.
  destruct (binary_round_aux_spec F32.prec F32.emax ltac:(reflexivity)
              sg mx ex l Hm Hn) as (M1 & B1 & _ & Be2 & Dv & Can & R).
  set (e1 := fexp F32.prec F32.emax (Zdigits2 mx + ex)) in *.
  set (m1 := mx / 2 ^ (e1 - ex)) in *.
  set (e2 := fexp F32.prec F32.emax (Zdigits2 M1 + e1)) in *.
  assert (P : 0 < 2 ^ (ex + K)) by (apply Z.pow_pos_nonneg; lia).
  assert (E : 0 < 2 ^ (e1 - ex)) by (apply Z.pow_pos_nonneg; lia).
  assert (G : 0 < 2 ^ (Be - e1)) by (apply Z.pow_pos_nonneg; lia).
  assert (Hm1 : 0 <= m1) by (apply Z.div_pos; lia).
  rewrite R. destruct (M1 / 2 ^ (e2 - e1)) as [|M|M] eqn:Q.
  - now left.
  - right. specialize (Can M eq_refl).
    assert (VM : posK K M e2 <= posK K Bm Be).
    { unfold posK in *.
      assert (PB : 2 ^ (Be + K) =
                   2 ^ (Be - e1) * (2 ^ (e1 - ex) * 2 ^ (ex + K)))
        by (rewrite <- !Z.pow_add_r by lia; f_equal; lia).
      assert (P2 : 2 ^ (e2 + K) =
                   2 ^ (e2 - e1) * (2 ^ (e1 - ex) * 2 ^ (ex + K)))
        by (rewrite <- !Z.pow_add_r by lia; f_equal; lia).
      rewrite PB in *. rewrite P2, Z.mul_assoc, <- Dv.
      pose proof (Z.mul_div_le mx (2 ^ (e1 - ex)) E) as Fl. fold m1 in Fl.
      apply (round_up_arith mx m1); try assumption; lia. }
    assert (Le : e2 <= Be).
    { destruct (Z.le_gt_cases e2 Be) as [L|L]; [exact L|].
      pose proof (canonical32_lt_exp_at K Bm M Be e2 HK CB Can L). lia. }
    exists M, e2. replace (e2 <=? F32.emax - F32.prec) with true.
    + split; [reflexivity|]. split; [|exact VM].
      unfold F32.valid, valid_binary, bounded. apply andb_true_intro.
      split; [exact Can|]. apply Z.leb_le. unfold F32.emax, F32.prec. lia.
    + symmetry. apply Z.leb_le. unfold F32.emax, F32.prec. lia.
  - exfalso.
    assert (0 <= M1 / 2 ^ (e2 - e1)); [|lia].
    apply Z.div_pos; [lia|]. apply Z.pow_pos_nonneg; lia.
Qed.


Lemma posK_pos (K : Z) (m : positive) (e : Z) : - K <= e -> 0 < posK K m e.
Proof.
  intro H. unfold posK. apply Z.mul_pos_pos; [lia|].
  apply Z.pow_pos_nonneg; lia.
Qed.

Lemma posK_rescale (K : Z) (m1 m2 : positive) (e1 e2 : Z) :
  200 <= K -> -200 <= e1 -> -200 <= e2 ->
  posK K m1 e1 <= posK K m2 e2 -> pos32 m1 e1 <= pos32 m2 e2.
Proof.
  intros HK E1 E2. unfold posK, pos32.
  replace (e1 + K) with ((e1 + 200) + (K - 200)) by lia.
  replace (e2 + K) with ((e2 + 200) + (K - 200)) by lia.
  rewrite (Z.pow_add_r 2 (e1 + 200)), (Z.pow_add_r 2 (e2 + 200)) by lia.
  rewrite !Z.mul_assoc.
  intro H. apply Z.mul_le_mono_pos_r in H; [exact H|].
  apply Z.pow_pos_nonneg; lia.
Qed.

(** Two canonical representations of one value are the same. *)
Lemma canonical32_unique (m1 m2 : positive) (e1 e2 : Z) :
  canonical32 m1 e1 -> canonical32 m2 e2 ->
  pos32 m1 e1 = pos32 m2 e2 -> m1 = m2 /\ e1 = e2.
Proof.
  intros C1 C2 E.
  assert (Ee : e1 = e2).
  { destruct (Z.lt_trichotomy e1 e2) as [L|[L|L]]; [|exact L|].
    - pose proof (canonical32_lt_exp m1 m2 e1 e2 C1 C2 L). lia.
    - pose proof (canonical32_lt_exp m2 m1 e2 e1 C2 C1 L). lia. }
  split; [|exact Ee]. subst e2.
  pose proof (canonical32_digits _ _ C1) as (_ & E1 & _).
  unfold pos32 in E. apply Z.mul_cancel_r in E; [congruence|].
  apply Z.pow_nonzero; lia.
Qed.

(** The exponent of a product of canonical mantissas is never above the
    canonical one. *)
Lemma mul_shift_nonneg (m1 m2 : positive) (e1 e2 : Z) :
  canonical32 m1 e1 -> canonical32 m2 e2 ->
  e1 + e2 <=
  fexp F32.prec F32.emax (Zdigits2 (Zpos (m1 * m2)) + (e1 + e2)).
Proof.
  intros C1 C2.
  pose proof (canonical32_digits _ _ C1) as (D1 & E1 & N1).
  pose proof (canonical32_digits _ _ C2) as (D2 & E2 & N2).
  assert (D : Zpos (digits2_pos m1) + Zpos (digits2_pos m2) - 1 <=
              Zdigits2 (Zpos (m1 * m2))).
  { pose proof (Zdigits2_log2 (Zpos m1) ltac:(lia)) as L1.
    pose proof (Zdigits2_log2 (Zpos m2) ltac:(lia)) as L2.
    cbn [Zdigits2] in L1, L2.
    rewrite Zdigits2_log2 by lia. rewrite Pos2Z.inj_mul.
    pose proof (Z.log2_mul_below (Zpos m1) (Zpos m2) ltac:(lia) ltac:(lia)).
    lia. }
  pose proof (Pos2Z.is_pos (digits2_pos m1)).
  pose proof (Pos2Z.is_pos (digits2_pos m2)).
  rewrite fexp32. lia.
Qed.

(** The product with a value of magnitude at most 1 has at most the
    magnitude of the other factor. *)
Lemma mul_abs_le (sa sy : bool) (ma my : positive) (ea ey : Z) :
  F32.valid (S754_finite sa ma ea) = true ->
  F32.valid (S754_finite sy my ey) = true ->
  pos32 my ey <= pos32 8388608 (-23) ->
  F32.mul (S754_finite sa ma ea) (S754_finite sy my ey) =
    S754_zero (xorb sa sy) \/
  exists (M : positive) (e : Z),
    F32.mul (S754_finite sa ma ea) (S754_finite sy my ey) =
      S754_finite (xorb sa sy) M e /\
    F32.valid (S754_finite (xorb sa sy) M e) = true /\
    pos32 M e <= pos32 ma ea.
Proof.
  intros Va Vy L.
  destruct (valid32_canonical _ _ _ Va) as [Ca Ba].
  destruct (valid32_canonical _ _ _ Vy) as [Cy By].
  pose proof (canonical32_digits _ _ Ca) as (_ & Ea & _).
  pose proof (canonical32_digits _ _ Cy) as (_ & Ey & _).
  assert (C1 : canonical32 8388608 (-23)) by reflexivity.
  unfold F32.mul. cbn [SFmul].
  destruct (Z.eq_dec (pos32 my ey) (pos32 8388608 (-23))) as [One|Lt].
  - right. destruct (canonical32_unique _ _ _ _ Cy C1 One) as [-> ->].
    exists ma, ea.
    rewrite (binary_round_aux_exact F32.prec F32.emax ltac:(reflexivity)
               (xorb sa sy) _ ma _ ea).
    + replace (ea <=? F32.emax - F32.prec) with true
        by (symmetry; apply Z.leb_le; unfold F32.emax, F32.prec; lia).
      split; [reflexivity|]. split; [exact Va|]. lia.
    + lia.
    + rewrite Pos2Z.inj_mul. replace (ea - (ea + -23)) with 23 by lia.
      reflexivity.
    + exact Ca.
  - assert (Ly : pos32 my ey < pos32 8388608 (-23)) by lia.
    assert (V4 : Zpos (ma * my) * 2 ^ (ea + ey + 400) < posK 400 ma ea).
    { unfold posK, pos32 in *. rewrite Pos2Z.inj_mul.
      change (2 ^ (-23 + 200)) with (2 ^ 177) in Ly.
      assert (Pa : 0 < 2 ^ (ea + 400)) by (apply Z.pow_pos_nonneg; lia).
      assert (Py : 0 < 2 ^ (ey + 200)) by (apply Z.pow_pos_nonneg; lia).
      assert (T : 2 ^ (ea + ey + 400) * 2 ^ 200 =
                  2 ^ (ea + 400) * 2 ^ (ey + 200))
        by (rewrite <- !Z.pow_add_r by lia; f_equal; lia).
      assert (W : Zpos my * 2 ^ (ey + 200) < 2 ^ 200).
      { change (2 ^ 200) with (8388608 * 2 ^ 177). exact Ly. }
      assert (P2 : 0 < 2 ^ 200) by (apply Z.pow_pos_nonneg; lia).
      apply (Z.mul_lt_mono_pos_r (2 ^ 200)); [exact P2|].
      replace (Zpos ma * Zpos my * 2 ^ (ea + ey + 400) * 2 ^ 200)
        with (Zpos ma * 2 ^ (ea + 400) * (Zpos my * 2 ^ (ey + 200)))
        by (rewrite <- (Z.mul_assoc _ (2 ^ (ea + ey + 400))), T; ring).
      apply Z.mul_lt_mono_pos_l; [|exact W].
      apply Z.mul_pos_pos; lia. }
    pose proof (mul_shift_nonneg ma my ea ey Ca Cy) as Sh.
    destruct (round_aux_upper_at 400 (xorb sa sy) (Zpos (ma * my)) (ea + ey)
                loc_Exact ma ea) as [->|(M & e & -> & VM & LM)];
      try lia; try assumption.
    + pose proof (digits_exp_mono_at 400 (Zpos (ma * my)) (ea + ey) ma ea
                    ltac:(lia) ltac:(lia) ltac:(lia) ltac:(lia)
                    ltac:(lia)) as Mo.
      pose proof Ca as Ca'. unfold canonical32, canonical_mantissa in Ca'.
      apply Z.eqb_eq in Ca'. rewrite fexp32 in *. lia.
    + now left.
    + right. exists M, e. split; [reflexivity|]. split; [exact VM|].
      destruct (valid32_canonical _ _ _ VM) as [CM _].
      pose proof (canonical32_digits _ _ CM) as (_ & EM & _).
      apply (posK_rescale 400); first [lia | exact LM].
Qed.

(** ** More on the oscillator *)

Lemma le_pos32 (m1 m2 : positive) (e1 e2 : Z) :
  canonical32 m1 e1 -> canonical32 m2 e2 ->
  (F32.le (S754_finite false m1 e1) (S754_finite false m2 e2) = true <->
   pos32 m1 e1 <= pos32 m2 e2).
Proof.
  intros C1 C2. unfold F32.le, SFleb. rewrite (compare32 m1 m2 e1 e2 C1 C2).
  destruct (Z.compare_spec (pos32 m1 e1) (pos32 m2 e2)) as [Q|Q|Q]; split;
    intro H; try reflexivity; try discriminate H; lia.
Qed.

Lemma valid32_abs (x : float) : F32.valid (SFabs x) = F32.valid x.
Proof. now destruct x. Qed.

Lemma is_finite32_abs (x : float) : is_finite32 (SFabs x) = is_finite32 x.
Proof. now destruct x. Qed.

Lemma scaled32_abs (x : float) : scaled32 (SFabs x) = Z.abs (scaled32 x).
Proof.
  destruct x as [s|s| |s m e]; try reflexivity. cbn [SFabs scaled32].
  assert (0 <= Zpos m * 2 ^ (e + 200))
    by (apply Z.mul_nonneg_nonneg; [lia | apply Z.pow_nonneg; lia]).
  destruct s; cbn [cond_Zopp]; lia.
Qed.

Lemma le_one_finite (x : float) :
  F32.le (SFabs x) (F32.of_Z 1) = true -> is_finite32 x = true.
Proof.
  rewrite ONE_value. intro L.
  destruct x as [s|s| |s m e]; try reflexivity; discriminate L.
Qed.

(** The product with a value of magnitude at most 1: finite, and of
    magnitude at most that of the other factor. *)
Lemma mul_bounded (a y : float) :
  is_finite32 a = true ->
  F32.valid a = true ->
  F32.valid y = true ->
  F32.le (SFabs y) (F32.of_Z 1) = true ->
  F32.valid (F32.mul a y) = true /\
  is_finite32 (F32.mul a y) = true /\
  F32.le (SFabs (F32.mul a y)) (SFabs a) = true.
Proof.
  intros Fa Va Vy Ly. rewrite ONE_value in Ly.
  assert (C1 : canonical32 8388608 (-23)) by reflexivity.
  destruct a as [sa|sa| |sa ma ea]; try discriminate Fa;
    destruct y as [sy|sy| |sy my ey];
    try discriminate Ly; unfold F32.mul; cbn [SFmul].
  - repeat split.
  - repeat split.
  - repeat split.
  - destruct (valid32_canonical _ _ _ Vy) as [Cy _].
    destruct (valid32_canonical _ _ _ Va) as [Ca _].
    cbn [SFabs] in Ly. apply (le_pos32 my 8388608 ey (-23) Cy C1) in Ly.
    destruct (mul_abs_le sa sy ma my ea ey Va Vy Ly)
      as [E|(M & e & E & VM & LM)]; unfold F32.mul in E; cbn [SFmul] in E;
      rewrite E.
    + repeat split.
    + split; [exact VM|]. split; [reflexivity|]. cbn [SFabs].
      destruct (valid32_canonical _ _ _ VM) as [CM _].
      now apply le_pos32.
Qed.

(** X5: when the sine is a [float] of magnitude at most 1 and the amplitude
    is finite, the sample [process] returns is finite and its magnitude is
    at most that of the amplitude: the rounding of the product never lifts
    it above the amplitude. *)
Theorem process_output_bounded (sinf : float -> float)
  (self : SineOscillator) :
  is_finite32 (amplitude self) = true ->
  F32.valid (amplitude self) = true ->
  F32.valid (sinf (angle self)) = true ->
  F32.le (SFabs (sinf (angle self))) (F32.of_Z 1) = true ->
  let sample := fst (process sinf self) in
  F32.valid sample = true /\
  is_finite32 sample = true /\
  F32.le (SFabs sample) (SFabs (amplitude self)) = true.
Proof.
  intros Fa Va Vy Ly. unfold process. cbn [fst]. now apply mul_bounded.
Qed.

Lemma process_output_bounded_witness :
  F32.le
    (SFabs (fst (process (fun a => a) (SineOscillator_new FREQUENCY AMPLITUDE))))
    (SFabs AMPLITUDE) = true.
Proof.
  apply (process_output_bounded (fun a => a)
           (SineOscillator_new FREQUENCY AMPLITUDE)); reflexivity.
Defined.

(** X4: for every frequency strictly between 0 and 22050 Hz the constructor
    computes a per-sample increment that is a finite [float] in [[0, 6]],
    hence below [TWO_PI]: one call of [process] advances the phase by less
    than a full turn. *)
Theorem angleStep_in_range (freq amp : float) :
  F32.valid freq = true ->
  F32.lt (S754_zero false) freq = true ->
  F32.lt freq (F32.of_Z 22050) = true ->
  let step := angleStep (SineOscillator_new freq amp) in
  F32.valid step = true /\
  F32.le (S754_zero false) step = true /\
  F32.le step (F32.of_Z 6) = true /\
  F32.lt step TWO_PI = true.
Proof.
  intros V P L step.
  destruct (SineOscillator_new_step freq amp V P L) as [N B].
  fold step in N, B. rewrite TWO_PI_value.
  change (F32.of_Z 6) with (S754_finite false 12582912 (-21)).
  destruct N as [|m e Vs]; [repeat split|].
  cbn [scaled32 cond_Zopp] in B. fold (pos32 m e) in B.
  destruct (valid32_canonical _ _ _ Vs) as [C _].
  split; [exact Vs|]. split; [reflexivity|]. split.
  - apply le_pos32; [exact C|reflexivity|exact B].
  - unfold F32.lt, SFltb.
    rewrite (compare32 m 13176795 e (-21) C ltac:(reflexivity)).
    assert (T : pos32 m e < pos32 13176795 (-21)).
    { eapply Z.le_lt_trans; [exact B|]. unfold pos32.
      apply Z.mul_lt_mono_pos_r; [apply Z.pow_pos_nonneg|]; lia. }
    apply Z.compare_lt_iff in T. now rewrite T.
Qed.

Lemma angleStep_in_range_witness :
  F32.le (angleStep (SineOscillator_new FREQUENCY AMPLITUDE)) (F32.of_Z 6)
    = true.
Proof.
  apply (angleStep_in_range FREQUENCY AMPLITUDE); reflexivity.
Defined.

(** ** The sample loop *)

Lemma after_succ (sinf : float -> float) (k : nat) (self : SineOscillator) :
  after sinf (S k) self = after sinf k (snd (process sinf self)).
Proof. unfold after. now rewrite Nat.iter_succ_r. Qed.

Lemma oscillator_samples_succ (sinf : float -> float) (n : nat)
  (self : SineOscillator) :
  oscillator_samples sinf (S n) self =
    fst (process sinf self) ::
    oscillator_samples sinf n (snd (process sinf self)).
Proof.
  unfold oscillator_samples. cbn [seq map]. f_equal.
  rewrite <- seq_shift, map_map. apply map_ext. intro k.
  now rewrite after_succ.
Qed.

Lemma addSample_Normal (self : WavWriter) (x : float) (self' : WavWriter) :
  addSample self x = Normal self' ->
  exists v : Z,
    cast_int16 (F64.mul (F64.of_float x) (maxAmplitude self)) = Some v /\
    self' = push_back self v.
Proof.
  unfold addSample. destruct (cast_int16 _) as [v|]; [|discriminate].
  intro E. injection E as <-. now exists v.
Qed.

(** X6: a run of the sample loop of [main] that completes leaves the
    scale factor alone and appends to the buffer exactly [n] values, the
    [k]-th being the conversion to [int16_t] of the [k]-th output of
    [process] times [maxAmplitude]; what the buffer held before stays in
    front, in order. *)
Theorem generate_stores_process_outputs (sinf : float -> float) (n : nat)
  (oscillator : SineOscillator) (writer writer' : WavWriter) :
  generate sinf n oscillator writer = Normal writer' ->
  maxAmplitude writer' = maxAmplitude writer /\
  exists stored : list Z,
    buffer writer' = buffer writer ++ stored /\
    List.length stored = n /\
    Forall2
      (fun x v =>
         cast_int16 (F64.mul (F64.of_float x) (maxAmplitude writer)) = Some v)
      (oscillator_samples sinf n oscillator) stored.
Proof.
  revert oscillator writer. induction n as [|n IH]; intros oscillator writer.
  - cbn [generate]. intro E. injection E as <-. split; [reflexivity|].
    exists []. rewrite app_nil_r. repeat split. constructor.
  - cbn [generate]. rewrite oscillator_samples_succ.
    destruct (process sinf oscillator) as [sample oscillator']. cbn [fst snd].
    destruct (addSample writer sample) as [w1|msg|] eqn:A;
      try discriminate.
    intro E. destruct (addSample_Normal _ _ _ A) as (v & C & ->).
    destruct (IH _ _ E) as (Mx & stored & B & Len & F).
    cbn [push_back maxAmplitude buffer] in *.
    split; [exact Mx|]. exists (v :: stored). split.
    + rewrite B, <- app_assoc. reflexivity.
    + split; [cbn; now rewrite Len|]. now constructor.
Qed.

Lemma generate_stores_process_outputs_witness :
  exists stored : list Z,
    buffer (push_back (push_back WavWriter_new 0) 0) =
      buffer WavWriter_new ++ stored /\
    List.length stored = 2%nat.
Proof.
  destruct (generate_stores_process_outputs (fun _ => S754_zero false) 2
              (SineOscillator_new FREQUENCY AMPLITUDE) WavWriter_new
              (push_back (push_back WavWriter_new 0) 0))
    as (_ & stored & B & L & _).
  - vm_compute. reflexivity.
  - exists stored. split; [exact B | exact L].
Defined.

(** ** The peak of the stored samples *)

Lemma le_abs_one_trans (x a : float) :
  F32.valid x = true -> F32.valid a = true ->
  F32.le (SFabs x) (SFabs a) = true ->
  F32.le (SFabs a) (F32.of_Z 1) = true ->
  F32.le (SFabs x) (F32.of_Z 1) = true.
Proof.
  intros Vx Va Lx La. rewrite ONE_value in *.
  assert (C1 : canonical32 8388608 (-23)) by reflexivity.
  destruct x as [s|s| |s m e].
  - reflexivity.
  - destruct a as [sa|sa| |sa ma ea]; try discriminate La; discriminate Lx.
  - destruct a as [sa|sa| |sa ma ea]; discriminate Lx.
  - destruct a as [sa|sa| |sa ma ea]; try discriminate La;
      [discriminate Lx|].
    destruct (valid32_canonical _ _ _ Vx) as [Cx _].
    destruct (valid32_canonical _ _ _ Va) as [Ca _].
    cbn [SFabs] in *.
    apply (le_pos32 m ma e ea Cx Ca) in Lx.
    apply (le_pos32 ma 8388608 ea (-23) Ca C1) in La.
    apply le_pos32; [exact Cx | exact C1 | lia].
Qed.

(** A sample of at most the magnitude of [a], itself at most 1, is stored
    as a value of magnitude at most [32767 |a|]. *)
Lemma addSample_peak (self : WavWriter) (a x : float) :
  maxAmplitude self = maxAmplitude WavWriter_new ->
  F32.valid a = true -> F32.valid x = true ->
  F32.le (SFabs a) (F32.of_Z 1) = true ->
  F32.le (SFabs x) (SFabs a) = true ->
  exists v : Z,
    addSample self x = Normal (push_back self v) /\
    Z.abs v * 2 ^ 200 <= Z.abs (scaled32 a) * 32767.
Proof.
  intros A Va Vx La Lx.
  pose proof (le_abs_one_trans x a Vx Va Lx La) as L1.
  destruct (addSample_unit self x A Vx L1) as (v & E & _).
  exists v. split; [exact E|].
  destruct (addSample_value self x _ A Vx E) as [Pv _].
  apply push_back_inj in Pv. subst v.
  pose proof (le_scaled32 (SFabs x) (SFabs a)) as S.
  rewrite !valid32_abs, !is_finite32_abs, !scaled32_abs in S.
  specialize (S Vx Va (le_one_finite x L1) (le_one_finite a La) Lx).
  assert (P : 0 < 2 ^ 200) by (apply Z.pow_pos_nonneg; lia).
  rewrite <- Z.quot_abs by lia.
  rewrite Z.abs_mul, (Z.abs_eq (2 ^ 200)) by lia.
  change (Z.abs 32767) with 32767.
  rewrite Z.quot_div_nonneg by lia.
  pose proof (Z.mul_div_le (Z.abs (scaled32 x) * 32767) (2 ^ 200) P).
  lia.
Qed.

(** With a sine in range, a phase and a step in range and an amplitude of
    magnitude at most 1, the loop runs to completion and stores only
    values of magnitude at most [32767 |amplitude|]. *)
Lemma generate_bounded (sinf : float -> float) (n : nat)
  (oscillator : SineOscillator) (writer : WavWriter) :
  sine_in_range sinf ->
  phase_invariant (angle oscillator) ->
  step_invariant (angleStep oscillator) ->
  F32.valid (amplitude oscillator) = true ->
  F32.le (SFabs (amplitude oscillator)) (F32.of_Z 1) = true ->
  maxAmplitude writer = maxAmplitude WavWriter_new ->
  exists stored : list Z,
    generate sinf n oscillator writer =
      Normal {| buffer := buffer writer ++ stored;
                maxAmplitude := maxAmplitude writer |} /\
    List.length stored = n /\
    Forall (fun v => Z.abs v * 2 ^ 200 <=
                     Z.abs (scaled32 (amplitude oscillator)) * 32767) stored /\
    Forall2
      (fun x v =>
         cast_int16 (F64.mul (F64.of_float x) (maxAmplitude writer)) = Some v)
      (oscillator_samples sinf n oscillator) stored.
Proof.
  intro Hs. revert oscillator writer.
  induction n as [|n IH]; intros oscillator writer Pa Ps Va La Mx.
  - exists []. cbn [generate]. rewrite app_nil_r. destruct writer.
    repeat split; constructor.
  - cbn [generate]. rewrite oscillator_samples_succ.
    destruct (process sinf oscillator) as [sample oscillator'] eqn:Ep.
    cbn [fst snd].
    assert (E1 : sample =
                 F32.mul (amplitude oscillator) (sinf (angle oscillator))).
    { unfold process in Ep. now injection Ep as <- _. }
    assert (E2 : oscillator' = snd (process sinf oscillator))
      by now rewrite Ep.
    destruct (Hs _ (phase_invariant_in_range _ Pa)) as [Vy Ly].
    destruct (mul_bounded _ _ (le_one_finite _ La) Va Vy Ly)
      as (Vs & _ & Ls).
    rewrite <- E1 in Vs, Ls.
    destruct (addSample_peak writer _ sample Mx Va Vs La Ls)
      as (v & A & Bv).
    destruct (addSample_Normal _ _ _ A) as (v' & C & Ev).
    apply push_back_inj in Ev. subst v'. rewrite A.
    destruct (IH oscillator' (push_back writer v))
      as (stored & G & Len & F & R).
    + rewrite E2. now apply process_keeps_phase.
    + rewrite E2. exact Ps.
    + rewrite E2. exact Va.
    + rewrite E2. exact La.
    + exact Mx.
    + exists (v :: stored). rewrite G. cbn [push_back buffer maxAmplitude].
      rewrite <- app_assoc. split; [reflexivity|].
      split; [cbn; now rewrite Len|]. split.
      * constructor; [exact Bv|]. rewrite E2 in F. exact F.
      * constructor; [exact C | exact R].
Qed.

(** X7: with a sine of range [[-1, 1]], a frequency strictly between 0 and
    22050 Hz and an amplitude of magnitude at most 1, the sample loop runs
    to completion for any number of samples (no conversion is undefined),
    and every stored value [v] is an [int16_t] with
    [|v| <= 32767 |amplitude|]. *)
Theorem stored_peak_bounded_by_amplitude (sinf : float -> float) (n : nat)
  (freq amp : float) :
  sine_in_range sinf ->
  F32.valid freq = true ->
  F32.lt (S754_zero false) freq = true ->
  F32.lt freq (F32.of_Z 22050) = true ->
  F32.valid amp = true ->
  F32.le (SFabs amp) (F32.of_Z 1) = true ->
  exists writer : WavWriter,
    generate sinf n (SineOscillator_new freq amp) WavWriter_new =
      Normal writer /\
    List.length (buffer writer) = n /\
    Forall (fun v => Z.abs v * 2 ^ 200 <= Z.abs (scaled32 amp) * 32767 /\
                     in_int16 v)
      (buffer writer).
Proof.
  intros Hs Vf Pf Lf Va La.
  destruct (generate_bounded sinf n (SineOscillator_new freq amp)
              WavWriter_new Hs) as (stored & G & Len & F & _).
  - split; [constructor|]. cbn [SineOscillator_new angle scaled32].
    apply pos32_pos. lia.
  - now apply SineOscillator_new_step.
  - exact Va.
  - exact La.
  - reflexivity.
  - eexists. split; [exact G|]. cbn [buffer WavWriter_new app].
    split; [exact Len|].
    cbn [SineOscillator_new amplitude] in F.
    apply Forall_impl with (2 := F). intros v B. split; [exact B|].
    pose proof (le_scaled32 (SFabs amp) (F32.of_Z 1)) as S.
    rewrite valid32_abs, is_finite32_abs, scaled32_abs, ONE_value in S.
    specialize (S Va eq_refl (le_one_finite amp La) eq_refl).
    rewrite <- ONE_value in S at 1. specialize (S La).
    cbn [scaled32 cond_Zopp] in S.
    change (8388608 * 2 ^ (-23 + 200)) with (2 ^ 200) in S.
    assert (P : 0 < 2 ^ 200) by (apply Z.pow_pos_nonneg; lia).
    unfold in_int16, INT16_MIN, INT16_MAX.
    assert (Z.abs v * 2 ^ 200 <= 32767 * 2 ^ 200) by nia.
    assert (Z.abs v <= 32767) by nia. lia.
Qed.

Lemma stored_peak_bounded_by_amplitude_witness :
  exists writer : WavWriter,
    generate (fun _ => S754_zero false) 3
      (SineOscillator_new FREQUENCY AMPLITUDE) WavWriter_new = Normal writer /\
    List.length (buffer writer) = 3%nat.
Proof.
  destruct (stored_peak_bounded_by_amplitude (fun _ => S754_zero false) 3
              FREQUENCY AMPLITUDE) as (writer & G & L & _);
    try reflexivity.
  - intros a _. split; reflexivity.
  - exists writer. split; [exact G | exact L].
Defined.

(** ** More on the writer and on [main] *)

(** The bytes 40-43 and 4-7 of what a successful run wrote. *)
Lemma size_fields_written (w : World) (self : WavWriter) (filename : string)
  (file : ofstream) :
  writeToFile w self filename = Normal file -> good file = true ->
  le_value (slice 40 4 (contents file)) =
    wav.dataSize (writeToFile_header w self) /\
  le_value (slice 4 4 (contents file)) =
    wav.chunkSize (writeToFile_header w self).
Proof.
  intros E G. rewrite (writeToFile_contents w self filename file E G).
  destruct (writeToFile_header_sizes w self) as [D C].
  set (header := writeToFile_header w self) in *.
  change (2 ^ 32) with (256 ^ Z.of_nat 4) in D, C.
  split.
  - change (slice 40 4 _) with (le_bytes 4 (wav.dataSize header)).
    rewrite le_value_le_bytes, D. apply Z.mod_mod. discriminate.
  - change (slice 4 4 _) with (le_bytes 4 (wav.chunkSize header)).
    rewrite le_value_le_bytes, C. apply Z.mod_mod. discriminate.
Qed.

(** X9: with a sine of range [[-1, 1]], a run of [main] ends normally in
    every world: with exit code 0, nothing on standard error and a file
    when [audio.wav] opens, and with exit code 1, the one line
    ["Error: Could not open file: audio.wav"] on standard error and no file
    when it does not. *)
Theorem main_exit_codes (sinf : float -> float) (w : World) :
  sine_in_range sinf ->
  exists r : ProcessResult,
    main sinf w = Normal r /\
    if can_open w "audio.wav"
    then exit_code r = 0 /\ stderr r = "" /\ audio_wav r <> None
    else exit_code r = 1 /\
         stderr r = ("Error: Could not open file: audio.wav" ++ endl)%string /\
         audio_wav r = None.
Proof.
  intro Hs. destruct (main_defined sinf w Hs) as (r & E & _).
  exists r. split; [exact E|].
  unfold main, main_try in E.
  destruct (generate sinf _ _ _) as [writer|msg|] eqn:G.
  - destruct (writeToFile_throws w writer "audio.wav") as [T N].
    destruct (can_open w "audio.wav").
    + destruct (N eq_refl) as [file F]. rewrite F in E.
      injection E as <-. cbn. repeat split. discriminate.
    + rewrite (T eq_refl) in E. injection E as <-. cbn. now repeat split.
  - exfalso. now apply generate_not_thrown in G.
  - discriminate E.
Qed.

Lemma main_exit_codes_witness :
  exists r : ProcessResult,
    main (fun _ => S754_zero false) read_only = Normal r /\
    exit_code r = 1 /\
    stderr r = ("Error: Could not open file: audio.wav" ++ endl)%string /\
    audio_wav r = None.
Proof.
  apply (main_exit_codes (fun _ => S754_zero false) read_only).
  intros a _. split; reflexivity.
Defined.

(** X10: with a sine of range [[-1, 1]] and a destination that opens and
    accepts every byte, [main] exits with code 0 and leaves a file of
    176444 bytes whose bytes 40-43 decode (little-endian) to the data size
    176400 and whose bytes 4-7 decode to 176436, the file size minus 8. *)
Theorem main_output (sinf : float -> float) (w : World) :
  sine_in_range sinf ->
  can_open w "audio.wav" = true -> space w = None ->
  exists file : ofstream,
    main sinf w =
      Normal {| exit_code := 0; stderr := ""; audio_wav := Some file |} /\
    good file = true /\
    Z.of_nat (List.length (contents file)) = 176444 /\
    le_value (slice 40 4 (contents file)) = 176400 /\
    le_value (slice 4 4 (contents file)) = 176436.
Proof.
  intros Hs O S. unfold main, main_try.
  destruct (generate_defined sinf
              (Z.to_nat (uint32_t (wav.SAMPLE_RATE * DURATION_SECONDS)))
              (SineOscillator_new FREQUENCY AMPLITUDE) WavWriter_new Hs)
    as (writer & -> & Len & _).
  - split; [constructor|]. cbn [SineOscillator_new angle scaled32].
    apply pos32_pos. lia.
  - apply SineOscillator_new_step; reflexivity.
  - reflexivity.
  - reflexivity.
  - constructor.
  - destruct (writeToFile_succeeds w writer "audio.wav" O S)
      as (file & E & G).
    rewrite E. exists file. split; [reflexivity|]. split; [exact G|].
    assert (B : buffer_size writer = 88200).
    { unfold buffer_size. rewrite Len. reflexivity. }
    destruct (file_size_in_range w writer "audio.wav" file E G) as [_ Sz].
    { rewrite B. reflexivity. }
    destruct (size_fields_written w writer "audio.wav" file E G) as [D C].
    destruct (writeToFile_header_sizes w writer) as [D' C'].
    rewrite D, C, D', C', Sz, B. repeat split.
Qed.

Lemma main_output_witness :
  exists file : ofstream,
    main (fun _ => S754_zero false) zeroed_world =
      Normal {| exit_code := 0; stderr := ""; audio_wav := Some file |} /\
    good file = true /\
    Z.of_nat (List.length (contents file)) = 176444 /\
    le_value (slice 40 4 (contents file)) = 176400 /\
    le_value (slice 4 4 (contents file)) = 176436.
Proof.
  apply (main_output (fun _ => S754_zero false) zeroed_world).
  - intros a _. split; reflexivity.
  - reflexivity.
  - reflexivity.
Defined.

(** X11: in such a run, what follows the 44-byte header is the little-endian
    encoding of 88200 samples, where the [k]-th sample is the conversion to
    [int16_t] of 32767 times the [k]-th output of the oscillator
    (440 Hz, amplitude 0.5), and no sample exceeds 16383 in magnitude:
    the file uses half of the 16-bit range. *)
Theorem main_payload (sinf : float -> float) (w : World) :
  sine_in_range sinf ->
  can_open w "audio.wav" = true -> space w = None ->
  exists (file : ofstream) (samples : list Z),
    main sinf w =
      Normal {| exit_code := 0; stderr := ""; audio_wav := Some file |} /\
    skipn 44 (contents file) = flat_map int16_bytes samples /\
    Z.of_nat (List.length samples) = 88200 /\
    Forall (fun v => - 16383 <= v <= 16383) samples /\
    Forall2
      (fun x v =>
         cast_int16 (F64.mul (F64.of_float x) (F64.of_Z 32767)) = Some v)
      (oscillator_samples sinf (Z.to_nat 88200)
         (SineOscillator_new FREQUENCY AMPLITUDE))
      samples.
Proof.
  intros Hs O S. unfold main, main_try.
  destruct (generate_bounded sinf
              (Z.to_nat (uint32_t (wav.SAMPLE_RATE * DURATION_SECONDS)))
              (SineOscillator_new FREQUENCY AMPLITUDE) WavWriter_new Hs)
    as (stored & G & Len & F & R).
  - split; [constructor|]. cbn [SineOscillator_new angle scaled32].
    apply pos32_pos. lia.
  - apply SineOscillator_new_step; reflexivity.
  - reflexivity.
  - reflexivity.
  - reflexivity.
  - rewrite G. cbn [buffer WavWriter_new app].
    set (writer := {| buffer := stored;
                      maxAmplitude := maxAmplitude WavWriter_new |}).
    destruct (writeToFile_succeeds w writer "audio.wav" O S)
      as (file & E & Gd).
    rewrite E. exists file, stored. split; [reflexivity|].
    assert (Bs : buffer_size writer = 88200).
    { unfold buffer_size. cbn [writer buffer]. rewrite Len. reflexivity. }
    destruct (file_size_in_range w writer "audio.wav" file E Gd) as [C _].
    { rewrite Bs. reflexivity. }
    split; [|split; [|split]].
    + rewrite C. unfold wav_file_spec.
      rewrite <- (buffer_bytes_spec writer), skipn_app, object_bytes_length.
      rewrite skipn_all2 by (rewrite object_bytes_length; lia).
      reflexivity.
    + exact Bs.
    + cbn [SineOscillator_new amplitude] in F.
      apply Forall_impl with (2 := F). intros v Bv.
      change (Z.abs (scaled32 AMPLITUDE)) with (2 ^ 199) in Bv.
      change (2 ^ 200) with (2 * 2 ^ 199) in Bv.
      assert (P : 0 < 2 ^ 199) by (apply Z.pow_pos_nonneg; lia).
      assert (2 * Z.abs v <= 32767) by nia. lia.
    + destruct maxAmplitude_value as [Mx _]. rewrite Mx in R. exact R.
Qed.

Lemma main_payload_witness :
  exists (file : ofstream) (samples : list Z),
    main (fun _ => S754_zero false) zeroed_world =
      Normal {| exit_code := 0; stderr := ""; audio_wav := Some file |} /\
    skipn 44 (contents file) = flat_map int16_bytes samples /\
    Z.of_nat (List.length samples) = 88200.
Proof.
  destruct (main_payload (fun _ => S754_zero false) zeroed_world)
    as (file & samples & M & C & L & _).
  - intros a _. split; reflexivity.
  - reflexivity.
  - reflexivity.
  - exists file, samples. split; [exact M|]. split; [exact C | exact L].
Defined.

(** ** The sign of the frequency *)

(** Rounding does not look at the sign. *)
Lemma binary_round_aux_opp (prec emax : Z) (s : bool) (mx ex : Z)
  (l : location) :
  binary_round_aux prec emax (negb s) mx ex l =
    SFopp (binary_round_aux prec emax s mx ex l).
Proof.
  unfold binary_round_aux.
  destruct (shr_fexp prec emax mx ex l) as [mrs' e'].
  destruct (shr_fexp prec emax _ e' loc_Exact) as [mrs'' e''].
  destruct (shr_m mrs'') as [|M|M]; [reflexivity| |reflexivity].
  now destruct (e'' <=? emax - prec).
Qed.

Lemma mul_opp_r (a y : float) :
  F32.mul a (SFopp y) = SFopp (F32.mul a y).
Proof.
  unfold F32.mul.
  destruct a as [sa|sa| |sa ma ea]; destruct y as [sy|sy| |sy my ey];
    cbn [SFopp SFmul]; try reflexivity;
    rewrite <- ?Bool.negb_xorb_r; try reflexivity.
  apply binary_round_aux_opp.
Qed.

Lemma div_opp_l (p c : float) :
  F32.div (SFopp p) c = SFopp (F32.div p c).
Proof.
  unfold F32.div.
  destruct p as [sp|sp| |sp mp ep]; destruct c as [sc|sc| |sc mc ec];
    cbn [SFopp SFdiv]; try reflexivity;
    rewrite <- ?Bool.negb_xorb_l; try reflexivity.
  destruct (SFdiv_core_binary _ _ _ _ _ _) as [[mz ez] lz].
  apply binary_round_aux_opp.
Qed.

(** X12: the per-sample increment is an odd function of the frequency:
    negating the frequency negates the increment exactly, for every
    [float] (zeros, infinities and NaN included). *)
Theorem angleStep_odd (freq amp : float) :
  angleStep (SineOscillator_new (SFopp freq) amp) =
    SFopp (angleStep (SineOscillator_new freq amp)).
Proof.
  cbn [SineOscillator_new angleStep]. now rewrite mul_opp_r, div_opp_l.
Qed.

(** The result of a rounding carries the sign it was given. *)
Lemma round_aux_signed (s : bool) (mx ex : Z) (l : location) :
  0 <= mx -> ex <= fexp F32.prec F32.emax (Zdigits2 mx + ex) ->
  signed s (binary_round_aux F32.prec F32.emax s mx ex l).
Proof.
  intros Hm Hn.
  destruct (binary_round_aux_spec F32.prec F32.emax ltac:(reflexivity)
              s mx ex l Hm Hn) as (M1 & B & _ & E2 & _ & _ & ->).
  set (e1 := fexp F32.prec F32.emax (Zdigits2 mx + ex)) in *.
  set (e2 := fexp F32.prec F32.emax (Zdigits2 M1 + e1)) in *.
  assert (P1 : 0 < 2 ^ (e1 - ex)) by (apply Z.pow_pos_nonneg; lia).
  assert (P2 : 0 < 2 ^ (e2 - e1)) by (apply Z.pow_pos_nonneg; lia).
  assert (Q1 : 0 <= mx / 2 ^ (e1 - ex)) by (apply Z.div_pos; lia).
  assert (Q2 : 0 <= M1 / 2 ^ (e2 - e1)) by (apply Z.div_pos; lia).
  destruct (M1 / 2 ^ (e2 - e1)) as [|M|M]; cbn [signed]; [reflexivity| |lia].
  now destruct (e2 <=? F32.emax - F32.prec).
Qed.

Lemma Zdigits2_mono (a b : Z) : 0 <= a <= b -> Zdigits2 a <= Zdigits2 b.
Proof.
  intros [A B]. destruct (Z.eq_dec a 0) as [->|N]; [apply Zdigits2_nonneg|].
  rewrite !Zdigits2_log2 by lia.
  pose proof (Z.log2_le_mono a b B). lia.
Qed.

(** A quotient has at least as many digits as the difference of those of
    its operands. *)
Lemma Zdigits2_quotient (a b : Z) :
  0 < a -> 0 < b -> Zdigits2 a - Zdigits2 b <= Zdigits2 (a / b).
Proof.
  intros A B.
  pose proof (Zdigits2_bounds a A) as [La _].
  pose proof (Zdigits2_bounds b B) as [_ Ub].
  pose proof (Zdigits2_pos b B) as Pb.
  set (k := Zdigits2 a - Zdigits2 b).
  destruct (Z.le_gt_cases k 0) as [K|K];
    [pose proof (Zdigits2_nonneg (a / b)); lia|].
  assert (Q : 2 ^ (k - 1) <= a / b).
  { apply Z.div_le_lower_bound; [exact B|].
    apply Z.le_trans with (2 ^ Zdigits2 b * 2 ^ (k - 1)).
    - apply Z.mul_le_mono_nonneg_r; [apply Z.pow_nonneg|]; lia.
    - rewrite <- Z.pow_add_r by lia.
      replace (Zdigits2 b + (k - 1)) with (Zdigits2 a - 1) by (unfold k; lia).
      exact La. }
  assert (P : 0 < 2 ^ (k - 1)) by (apply Z.pow_pos_nonneg; lia).
  pose proof (Zdigits2_mono (2 ^ (k - 1)) (a / b) ltac:(lia)) as Mo.
  rewrite (Zdigits2_unique (2 ^ (k - 1)) k) in Mo; [exact Mo| |exact P].
  split; [lia|]. apply Z.pow_lt_mono_r; lia.
Qed.

Lemma fexp32_mono (a b : Z) :
  a <= b -> fexp F32.prec F32.emax a <= fexp F32.prec F32.emax b.
Proof. intro L. rewrite !fexp32. lia. Qed.

(** A quotient of two finite values carries the sign given to it. *)
Lemma div_signed (s : bool) (m1 m2 : positive) (e1 e2 : Z) :
  signed s
    (let '(mz, ez, lz) :=
       SFdiv_core_binary F32.prec F32.emax (Zpos m1) e1 (Zpos m2) e2 in
     binary_round_aux F32.prec F32.emax s mz ez lz).
Proof.
  destruct (div_core_spec F32.prec F32.emax m1 m2 e1 e2) as [l ->].
  set (e' := Z.min _ _).
  set (sh := e1 - e2 - e').
  assert (Hs : 0 <= sh) by (unfold sh, e'; lia).
  assert (Ps : 0 < 2 ^ sh) by (apply Z.pow_pos_nonneg; lia).
  apply round_aux_signed; [apply Z.div_pos; lia|].
  apply Z.le_trans
    with (fexp F32.prec F32.emax
            (Zdigits2 (Zpos m1) + e1 - (Zdigits2 (Zpos m2) + e2)));
    [unfold e'; lia|].
  apply fexp32_mono.
  pose proof (Zdigits2_quotient (Zpos m1 * 2 ^ sh) (Zpos m2)
                ltac:(lia) ltac:(lia)) as Q.
  rewrite Zdigits2_mul_pow2 in Q by lia. unfold sh in *. lia.
Qed.

(** The increment has the sign of the frequency. *)
Lemma angleStep_signed (s : bool) (freq amp : float) :
  F32.valid freq = true -> signed s freq ->
  signed s (angleStep (SineOscillator_new freq amp)).
Proof.
  intros V Sf. cbn [SineOscillator_new angleStep].
  rewrite TWO_PI_value, SAMPLE_RATE_value.
  assert (Sp : signed s (F32.mul (S754_finite false 13176795 (-21)) freq)).
  { unfold F32.mul. destruct freq as [sf|sf| |sf m e]; cbn [SFmul xorb];
      try exact Sf.
    cbn [signed] in Sf. subst sf.
    destruct (valid32_canonical _ _ _ V) as [C _].
    apply round_aux_signed; [lia|].
    apply mul_shift_nonneg; [reflexivity | exact C]. }
  unfold F32.div.
  destruct (F32.mul _ freq) as [sp|sp| |sp mp ep]; cbn [SFdiv signed] in *;
    try (now rewrite Bool.xorb_false_r); [contradiction|].
  subst sp. rewrite Bool.xorb_false_r. apply div_signed.
Qed.

Lemma nonpos32_not_ge (a : float) : nonpos32 a -> F32.ge a TWO_PI = false.
Proof.
  rewrite TWO_PI_value. unfold F32.ge, SFleb.
  destruct a as [s|s| |s m e]; cbn [nonpos32 signed]; intro H;
    try contradiction; try subst s; reflexivity.
Qed.

Lemma nonpos32_le (a : float) :
  nonpos32 a -> F32.le a (S754_zero false) = true.
Proof.
  unfold F32.le, SFleb.
  destruct a as [s|s| |s m e]; cbn [nonpos32 signed]; intro H;
    try contradiction; try subst s; reflexivity.
Qed.

(** Adding a value that is not positive to a phase that is not positive. *)
Lemma add_nonpos (a st : float) :
  nonpos32 a -> signed true st -> nonpos32 (F32.add a st).
Proof.
  unfold F32.add.
  destruct a as [sa|sa| |sa ma ea]; destruct st as [ss|ss| |ss ms es];
    cbn [nonpos32 signed]; intros Ha Hs; try contradiction;
    try subst sa; try subst ss; cbn [SFadd Bool.eqb nonpos32 signed];
    try reflexivity; try exact I.
  - now destruct sa.
  - cbn [cond_Zopp]. set (ez := Z.min ea es).
    rewrite <- Z.opp_add_distr, <- Pos2Z.inj_add, Pos2Z.opp_pos.
    cbn [binary_normalize]. set (mz := (_ + _)%positive).
    destruct (binary_round_spec F32.prec F32.emax true mz ez)
      as (mz' & ez' & Ez & _ & D & ->).
    assert (Sg : signed true
                   (binary_round_aux F32.prec F32.emax true (Zpos mz') ez'
                      loc_Exact)).
    { apply round_aux_signed; [lia|]. rewrite D, Ez. lia. }
    destruct (binary_round_aux _ _ _ _ _ _); cbn [nonpos32 signed] in *;
      [exact I | exact Sg | exact Sg | exact Sg].
Qed.

Lemma process_nonpos (sinf : float -> float) (self : SineOscillator) :
  nonpos32 (angle self) -> signed true (angleStep self) ->
  angle (snd (process sinf self)) = F32.add (angle self) (angleStep self) /\
  nonpos32 (angle (snd (process sinf self))).
Proof.
  intros Ha Hs. pose proof (add_nonpos _ _ Ha Hs) as N.
  unfold process. cbn [snd angle]. rewrite (nonpos32_not_ge _ N).
  now split.
Qed.

Lemma after_nonpos (sinf : float -> float) (n : nat) (self : SineOscillator) :
  nonpos32 (angle self) -> signed true (angleStep self) ->
  nonpos32 (angle (after sinf n self)).
Proof.
  intros Ha Hs. induction n as [|n IH]; [exact Ha|].
  unfold after in *. rewrite Nat.iter_succ.
  apply process_nonpos; [exact IH|].
  fold (after sinf n self).
  destruct (after_fixed sinf n self) as (_ & _ & ->). exact Hs.
Qed.

(** X13: with a negative frequency the phase is never wrapped: after every
    number of calls the phase compares [<= 0], and each call only adds the
    increment (the branch [angle >= TWO_PI] is not taken).  After the first
    call the phase is the increment itself, which is below zero and
    outside [[0, 2 pi)], unless the increment underflowed to [-0], in
    which case the phase is still [+0]. *)
Theorem negative_frequency_never_wraps (sinf : float -> float)
  (freq amp : float) (n : nat) :
  F32.valid freq = true ->
  F32.lt freq (S754_zero false) = true ->
  let oscillator := SineOscillator_new freq amp in
  let self := after sinf n oscillator in
  F32.le (angle self) (S754_zero false) = true /\
  angle (after sinf (S n) oscillator) =
    F32.add (angle self) (angleStep oscillator) /\
  (angle (after sinf 1 oscillator) = S754_zero false \/
   angle (after sinf 1 oscillator) = angleStep oscillator /\
   F32.lt (angleStep oscillator) (S754_zero false) = true /\
   ~ phase_in_range (angleStep oscillator)).
Proof.
  intros V L oscillator self.
  assert (Sf : signed true freq).
  { unfold F32.lt, SFltb in L.
    destruct freq as [s|s| |s m e]; try discriminate L;
      destruct s; try discriminate L; reflexivity. }
  pose proof (angleStep_signed true freq amp V Sf) as Ss.
  fold oscillator in Ss.
  assert (Ha : nonpos32 (angle oscillator)) by exact I.
  pose proof (after_nonpos sinf n oscillator Ha Ss) as Hn. fold self in Hn.
  destruct (after_fixed sinf n oscillator) as (_ & _ & St). fold self in St.
  split; [now apply nonpos32_le|]. split.
  - unfold after. rewrite Nat.iter_succ. fold (after sinf n oscillator).
    fold self.
    assert (Ss' : signed true (angleStep self)) by (rewrite St; exact Ss).
    destruct (process_nonpos sinf self Hn Ss') as [E _].
    rewrite E, St. reflexivity.
  - change (after sinf 1 oscillator) with (snd (process sinf oscillator)).
    destruct (process_nonpos sinf oscillator Ha Ss) as [E _]. rewrite E.
    change (angle oscillator) with (S754_zero false).
    unfold F32.add, F32.lt, SFltb.
    destruct (angleStep oscillator) as [s|s| |s m e]; cbn [signed] in Ss;
      try contradiction; subst s; cbn [SFadd Bool.eqb].
    + now left.
    + right. split; [reflexivity|]. split; [reflexivity|].
      intros (_ & Le & _). discriminate Le.
    + right. split; [reflexivity|]. split; [reflexivity|].
      intros (_ & Le & _). discriminate Le.
Qed.

Lemma negative_frequency_never_wraps_witness :
  F32.le
    (angle (after (fun _ => S754_zero false) 3
              (SineOscillator_new (F32.of_Z (-440)) AMPLITUDE)))
    (S754_zero false) = true.
Proof.
  apply (negative_frequency_never_wraps (fun _ => S754_zero false)
           (F32.of_Z (-440)) AMPLITUDE 3); reflexivity.
Defined.
